(** * express-service-proxy: circuit breaker, load balancer and service registry

    A shallow embedding of [lib/circuitBreaker.js], [lib/loadBalancer.js] and
    [lib/proxy.js].  JavaScript objects with mutable fields become records that
    are threaded through the operations; [Date.now()] and [Math.random()] are
    read from the environment, so every operation that calls them takes the
    value it reads as an argument.

    Numbers are modelled by [Z]: every number the library computes with is an
    integer counter, an index or a millisecond timestamp, far below 2^53. *)

From stdpp Require Import gmap strings list fin_maps.

(** ** Shared vocabulary *)

(** What a JavaScript call does: it returns a value or throws [new Error(msg)]. *)
Inductive outcome (A : Type) : Type :=
  | Returns (a : A)
  | Throws (msg : string).
Arguments Returns {A} a.
Arguments Throws {A} msg.

(** [v || d] on an optional numeric option: [undefined] and [0] are falsy. *)
Definition num_or (v : option Z) (d : Z) : Z :=
  match v with
  | Some n => if Z.eqb n 0 then d else n
  | None => d
  end.

(** [v || d] on an optional string: [undefined] and the empty string are falsy. *)
Definition str_or (v : option string) (d : string) : string :=
  match v with
  | Some s => if String.eqb s EmptyString then d else s
  | None => d
  end.

(** ** lib/circuitBreaker.js *)

Module CircuitBreaker.

Local Open Scope Z_scope.

Inductive State : Type := CLOSED | OPEN | HALF_OPEN.

#[global] Instance State_eq_dec : EqDecision State.
Proof. solve_decision. Defined.

(** The [options] object of the constructor; a missing key is [None]. *)
Record Options : Type := mkOptions {
  opt_failureThreshold : option Z;
  opt_resetTimeout : option Z;
  opt_halfOpenSuccessThreshold : option Z;
  opt_requestTimeout : option Z
}.

Record t : Type := mk {
  state : State;
  failureCount : Z;
  successCount : Z;
  lastFailureTime : option Z;          (* [null] is [None] *)
  failureThreshold : Z;
  resetTimeout : Z;
  halfOpenSuccessThreshold : Z;
  requestTimeout : Z
}.

Definition set_state (s : State) (cb : t) : t :=
  mk s (failureCount cb) (successCount cb) (lastFailureTime cb)
     (failureThreshold cb) (resetTimeout cb) (halfOpenSuccessThreshold cb)
     (requestTimeout cb).

Definition set_failureCount (n : Z) (cb : t) : t :=
  mk (state cb) n (successCount cb) (lastFailureTime cb)
     (failureThreshold cb) (resetTimeout cb) (halfOpenSuccessThreshold cb)
     (requestTimeout cb).

Definition set_successCount (n : Z) (cb : t) : t :=
  mk (state cb) (failureCount cb) n (lastFailureTime cb)
     (failureThreshold cb) (resetTimeout cb) (halfOpenSuccessThreshold cb)
     (requestTimeout cb).

Definition set_lastFailureTime (o : option Z) (cb : t) : t :=
  mk (state cb) (failureCount cb) (successCount cb) o
     (failureThreshold cb) (resetTimeout cb) (halfOpenSuccessThreshold cb)
     (requestTimeout cb).

Definition constructor (options : Options) : t :=
  {| state := CLOSED;
     failureCount := 0;
     successCount := 0;
     lastFailureTime := None;
     failureThreshold := num_or (opt_failureThreshold options) 5;
     resetTimeout := num_or (opt_resetTimeout options) 30000;
     halfOpenSuccessThreshold := num_or (opt_halfOpenSuccessThreshold options) 3;
     requestTimeout := num_or (opt_requestTimeout options) 10000 |}.

Definition transitionToOpen (cb : t) : t :=
  set_successCount 0 (set_state OPEN cb).

Definition transitionToHalfOpen (cb : t) : t :=
  set_successCount 0 (set_state HALF_OPEN cb).

Definition transitionToClosed (cb : t) : t :=
  set_successCount 0 (set_failureCount 0 (set_state CLOSED cb)).

(** [now - this.lastFailureTime]: a [null] timestamp counts as [0]. *)
Definition elapsed (now : Z) (cb : t) : Z :=
  now - default 0 (lastFailureTime cb).

(** [isOpen()] reading [now] from the clock: the answer and the breaker
    after the call. *)
Definition isOpen (now : Z) (cb : t) : bool * t :=
  let cb1 :=
    if bool_decide (state cb = OPEN) then
      if resetTimeout cb <? elapsed now cb then transitionToHalfOpen cb
      else cb
    else cb in
  (bool_decide (state cb1 = OPEN), cb1).

Definition recordFailure (now : Z) (cb : t) : t :=
  let cb1 := set_successCount 0
               (set_failureCount (failureCount cb + 1)
                  (set_lastFailureTime (Some now) cb)) in
  if bool_decide (state cb1 = CLOSED)
     && (failureThreshold cb1 <=? failureCount cb1) then
    transitionToOpen cb1
  else if bool_decide (state cb1 = HALF_OPEN) then
    transitionToOpen cb1
  else cb1.

Definition recordSuccess (cb : t) : t :=
  let cb1 := set_failureCount 0 cb in
  if bool_decide (state cb1 = HALF_OPEN) then
    let cb2 := set_successCount (successCount cb1 + 1) cb1 in
    if halfOpenSuccessThreshold cb2 <=? successCount cb2 then
      transitionToClosed cb2
    else cb2
  else cb1.

Definition reset (cb : t) : t :=
  set_lastFailureTime None
    (set_successCount 0 (set_failureCount 0 (set_state CLOSED cb))).

(** The object returned by [getState()]. *)
Record Snapshot : Type := mkSnapshot {
  snap_state : State;
  snap_failureCount : Z;
  snap_successCount : Z;
  snap_lastFailureTime : option Z
}.

Definition getState (cb : t) : Snapshot :=
  {| snap_state := state cb;
     snap_failureCount := failureCount cb;
     snap_successCount := successCount cb;
     snap_lastFailureTime := lastFailureTime cb |}.

(** A run of consecutive [recordFailure()] calls, one clock reading each. *)
Definition recordFailures (times : list Z) (cb : t) : t :=
  foldl (fun acc now => recordFailure now acc) cb times.

(** A run of [n] consecutive [recordSuccess()] calls. *)
Definition recordSuccesses (n : nat) (cb : t) : t :=
  Nat.iter n recordSuccess cb.

(** The calls that act on a breaker. *)
Inductive op : Type :=
  | RecordFailure (now : Z)
  | RecordSuccess
  | IsOpen (now : Z)
  | Reset.

Definition step (cb : t) (o : op) : t :=
  match o with
  | RecordFailure now => recordFailure now cb
  | RecordSuccess => recordSuccess cb
  | IsOpen now => (isOpen now cb).2
  | Reset => reset cb
  end.

Definition run (ops : list op) (cb : t) : t := foldl step cb ops.

(** The four configured settings of two breakers agree. *)
Definition same_settings (cb1 cb2 : t) : Prop :=
  failureThreshold cb1 = failureThreshold cb2
  ∧ resetTimeout cb1 = resetTimeout cb2
  ∧ halfOpenSuccessThreshold cb1 = halfOpenSuccessThreshold cb2
  ∧ requestTimeout cb1 = requestTimeout cb2.

(** How the counters and the timestamp sit in each state. *)
Definition consistent (cb : t) : Prop :=
  0 ≤ failureCount cb
  ∧ match state cb with
    | CLOSED => successCount cb = 0 ∧ failureCount cb < failureThreshold cb
    | OPEN => successCount cb = 0 ∧ is_Some (lastFailureTime cb)
    | HALF_OPEN =>
        0 ≤ successCount cb < halfOpenSuccessThreshold cb
        ∧ is_Some (lastFailureTime cb)
    end.

(** The edges of the state machine: which call takes which state where. *)
Definition edge (s : State) (o : op) (s' : State) : Prop :=
  match o with
  | RecordFailure _ =>
      (s = CLOSED ∧ (s' = CLOSED ∨ s' = OPEN)) ∨ (s ≠ CLOSED ∧ s' = OPEN)
  | RecordSuccess => s' = s ∨ (s = HALF_OPEN ∧ s' = CLOSED)
  | IsOpen _ => s' = s ∨ (s = OPEN ∧ s' = HALF_OPEN)
  | Reset => s' = CLOSED
  end.

End CircuitBreaker.

(** ** lib/loadBalancer.js *)

Module LoadBalancer.

(** A value stored in [connectionCounts]: a number, or [NaN] (what
    [undefined++] leaves behind). *)
Inductive jsnum : Type := Num (n : Z) | NaN.

#[global] Instance jsnum_eq_dec : EqDecision jsnum.
Proof. solve_decision. Defined.

(** [connectionCounts] is a plain object ([{}]), so besides the counters
    stored in it a key can find a property of [Object.prototype].  What
    reading a key gives: nothing, a stored counter, or an inherited object
    or function, kept here as the string it converts to in a comparison. *)
Inductive jsval : Type :=
  | Undefined
  | Number (v : jsnum)
  | Inherited (text : string).

(** The names of the functions [Object.prototype] carries (other than
    [constructor], which is the function [Object]). *)
Definition prototypeMethods : list string :=
  ["hasOwnProperty"; "isPrototypeOf"; "propertyIsEnumerable";
   "toLocaleString"; "toString"; "valueOf";
   "__defineGetter__"; "__defineSetter__";
   "__lookupGetter__"; "__lookupSetter__"].

(** The properties of [Object.prototype], each with the string its value
    converts to (as Node prints built-in functions).  [__proto__] is an
    accessor whose getter returns [Object.prototype] itself. *)
Definition objectPrototype (key : string) : option string :=
  if String.eqb key "__proto__" then Some "[object Object]"
  else if String.eqb key "constructor" then
    Some "function Object() { [native code] }"
  else if bool_decide (key ∈ prototypeMethods) then
    Some (String.append "function " (String.append key "() { [native code] }"))
  else None.

(** [counts[key]]: the stored counter if there is one, otherwise what the
    prototype has under that name. *)
Definition read (counts : gmap string jsnum) (key : string) : jsval :=
  match counts !! key with
  | Some v => Number v
  | None =>
      match objectPrototype key with
      | Some text => Inherited text
      | None => Undefined
      end
  end.

(** [counts[key] = v] for a number [v].  Under the key [__proto__] the
    assignment reaches the setter of [Object.prototype], which ignores a
    value that is not an object, unless the object has a property of its
    own under that name; under every other key it stores the value. *)
Definition write (counts : gmap string jsnum) (key : string) (v : jsnum)
    : gmap string jsnum :=
  if String.eqb key "__proto__" && bool_decide (counts !! key = None)
  then counts
  else <[key := v]> counts.

(** [a < b] on two reads of the counter object: numeric on two numbers,
    by code units on two inherited values (both convert to strings), false
    in every other case (one side converts to [NaN]). *)
Definition js_lt (a b : jsval) : bool :=
  match a, b with
  | Number (Num x), Number (Num y) => (x <? y)%Z
  | Inherited s, Inherited t => String.ltb s t
  | _, _ => false
  end.

(** The value computed by [counts[k]++]. *)
Definition js_incr (a : jsval) : jsnum :=
  match a with
  | Number (Num x) => Num (x + 1)
  | _ => NaN
  end.

(** A reading of [Math.random()], the rational [num / den] in [0, 1). *)
Record sample : Type := mkSample { num : nat; den : nat }.

Record t : Type := mk {
  targets : list string;
  strategy : string;
  currentIndex : nat;
  connectionCounts : gmap string jsnum
}.

Definition set_targets (ts : list string) (lb : t) : t :=
  mk ts (strategy lb) (currentIndex lb) (connectionCounts lb).

Definition set_currentIndex (i : nat) (lb : t) : t :=
  mk (targets lb) (strategy lb) i (connectionCounts lb).

Definition set_connectionCounts (m : gmap string jsnum) (lb : t) : t :=
  mk (targets lb) (strategy lb) (currentIndex lb) m.

(** [new LoadBalancer(targets, strategy)]: [[...targets]] is a fresh array
    owned by the balancer alone, so the record holds it by value. *)
Definition constructor (ts : list string) (strat : string) : t :=
  {| targets := ts;
     strategy := strat;
     currentIndex := 0;
     connectionCounts :=
       foldl (fun acc target => write acc target (Num 0)) ∅ ts |}.

Definition getRoundRobinTarget (lb : t) : option string * t :=
  let target := targets lb !! currentIndex lb in
  (target,
   set_currentIndex ((currentIndex lb + 1) mod length (targets lb)) lb).

Definition getRandomTarget (u : sample) (lb : t) : option string * t :=
  let randomIndex := (num u * length (targets lb)) / den u in
  (targets lb !! randomIndex, lb).

(** The [reduce] of [getLeastConnectionsTarget], started at [targets[0]]. *)
Definition least (counts : gmap string jsnum) (ts : list string)
    (first : string) : string :=
  foldl (fun min curr =>
           if js_lt (read counts curr) (read counts min) then curr else min)
        first ts.

(** On an empty list [reduce] returns its initial value [undefined], and
    the increment then writes the key ["undefined"]. *)
Definition getLeastConnectionsTarget (lb : t) : option string * t :=
  let target :=
    match targets lb with
    | [] => None
    | first :: _ => Some (least (connectionCounts lb) (targets lb) first)
    end in
  let key := default "undefined" target in
  (target,
   set_connectionCounts
     (write (connectionCounts lb) key (js_incr (read (connectionCounts lb) key)))
     lb).

Definition getNextTarget (u : sample) (lb : t) : outcome (option string) * t :=
  if length (targets lb) =? 0 then
    (Throws "No targets available for load balancing", lb)
  else if length (targets lb) =? 1 then
    (Returns (targets lb !! 0), lb)
  else if String.eqb (strategy lb) "random" then
    let '(r, lb') := getRandomTarget u lb in (Returns r, lb')
  else if String.eqb (strategy lb) "least-connections" then
    let '(r, lb') := getLeastConnectionsTarget lb in (Returns r, lb')
  else
    let '(r, lb') := getRoundRobinTarget lb in (Returns r, lb').

Definition releaseConnection (target : string) (lb : t) : t :=
  match read (connectionCounts lb) target with
  | Number (Num n) =>
      if (0 <? n)%Z then
        set_connectionCounts (write (connectionCounts lb) target (Num (n - 1))) lb
      else lb
  | _ => lb
  end.

Definition addTarget (target : string) (lb : t) : t :=
  if bool_decide (target ∈ targets lb) then lb
  else
    set_connectionCounts (write (connectionCounts lb) target (Num 0))
      (set_targets (targets lb ++ [target]) lb).

(** [Array.prototype.indexOf]: the first position holding [x]. *)
Fixpoint indexOf (x : string) (l : list string) : option nat :=
  match l with
  | [] => None
  | y :: l' => if String.eqb y x then Some 0 else S <$> indexOf x l'
  end.

Definition removeTarget (target : string) (lb : t) : t :=
  match indexOf target (targets lb) with
  | Some index =>
      let lb1 := set_targets (delete index (targets lb)) lb in
      let lb2 := set_connectionCounts (delete target (connectionCounts lb1)) lb1 in
      if length (targets lb2) <=? currentIndex lb2 then set_currentIndex 0 lb2
      else lb2
  | None => lb
  end.

Definition getTargets (lb : t) : list string := targets lb.

(** Consecutive [getNextTarget()] calls, one for each reading of
    [Math.random()] in [us]: the values returned, in call order, and the
    balancer afterwards. *)
Fixpoint getNextTargets (us : list sample) (lb : t)
    : list (outcome (option string)) * t :=
  match us with
  | [] => ([], lb)
  | u :: us' =>
      let '(r, lb1) := getNextTarget u lb in
      let '(rs, lb2) := getNextTargets us' lb1 in
      (r :: rs, lb2)
  end.

(** The mutating calls a client can make on a balancer. *)
Inductive op : Type :=
  | AddTarget (target : string)
  | RemoveTarget (target : string)
  | GetNextTarget (u : sample)
  | ReleaseConnection (target : string).

Definition step (lb : t) (o : op) : t :=
  match o with
  | AddTarget target => addTarget target lb
  | RemoveTarget target => removeTarget target lb
  | GetNextTarget u => snd (getNextTarget u lb)
  | ReleaseConnection target => releaseConnection target lb
  end.

Definition run (ops : list op) (lb : t) : t := foldl step lb ops.

(** The two halves of the data-model invariant, as the specification words
    them: the cursor indexes the target list, and the counter object has
    the current targets, and only them, as keys. *)
Definition cursor_valid (lb : t) : Prop :=
  currentIndex lb < length (targets lb).

Definition counters_match (lb : t) : Prop :=
  dom (connectionCounts lb) = list_to_set (targets lb).

(** The counter of [target] is the number [n]. *)
Definition has_count (counts : gmap string jsnum) (target : string) (n : Z) : Prop :=
  counts !! target = Some (Num n).

(** [target] is the first of [ts] at which the counter is smallest. *)
Definition first_least (counts : gmap string jsnum) (ts : list string) (target : string) : Prop :=
  ∃ (i : nat) (n : Z),
    ts !! i = Some target
    ∧ has_count counts target n
    ∧ (∀ (j : nat) t m, ts !! j = Some t → has_count counts t m → (n ≤ m)%Z)
    ∧ (∀ (j : nat) t m, j < i → ts !! j = Some t → has_count counts t m → (n < m)%Z).

(** The strategies that reach the [default] arm of the [switch]. *)
Definition is_round_robin (lb : t) : Prop :=
  strategy lb ≠ "random" ∧ strategy lb ≠ "least-connections".

(** Every counter is a number and none is negative. *)
Definition counters_numeric (lb : t) : Prop :=
  ∀ target v, connectionCounts lb !! target = Some v → ∃ n, v = Num n ∧ (0 ≤ n)%Z.

(** What the operations maintain from a duplicate-free start: on an empty
    list the cursor rests at 0, which indexes nothing. *)
Definition well_formed (lb : t) : Prop :=
  NoDup (targets lb)
  ∧ (cursor_valid lb ∨ (targets lb = [] ∧ currentIndex lb = 0))
  ∧ counters_match lb
  ∧ counters_numeric lb.

(** A reading [Math.random()] can give: below 1. *)
Definition in_unit_interval (u : sample) : Prop := num u < den u.

(** Every counter reads 0. *)
Definition counters_zero (lb : t) : Prop :=
  ∀ target v, connectionCounts lb !! target = Some v → v = Num 0.

(** A least-connections balancer over [ts] that has handed out the first
    [k] targets once each and none of the others. *)
Definition served (k : nat) (ts : list string) (lb : t) : Prop :=
  targets lb = ts
  ∧ strategy lb = "least-connections"
  ∧ ∀ (i : nat) target,
      ts !! i = Some target →
      has_count (connectionCounts lb) target (if decide (i < k) then 1 else 0).

(** The cursor part of the invariant as the code keeps it: on an empty
    list the cursor rests at 0. *)
Definition cursor_kept (lb : t) : Prop :=
  cursor_valid lb ∨ (targets lb = [] ∧ currentIndex lb = 0).

(** Neither the constructor list nor an [addTarget] call brings in the
    name [__proto__], the one key a plain object cannot store a number
    under. *)
Definition avoids_proto (ts : list string) (ops : list op) : Prop :=
  ("__proto__" ∉ ts) ∧ (AddTarget "__proto__" ∉ ops).

(** What the operations maintain from any duplicate-free start: every
    target other than [__proto__] has a counter, and the counters are
    numbers from 0 up. *)
Definition tended (lb : t) : Prop :=
  NoDup (targets lb)
  ∧ (∀ target, target ∈ targets lb → target ≠ "__proto__" →
       ∃ n, has_count (connectionCounts lb) target n)
  ∧ counters_numeric lb.

End LoadBalancer.

(** ** lib/proxy.js *)

Module ServiceProxy.

(** The address of an array the caller passes to [registerService]. *)
Definition ref : Type := positive.

(** The caller's arrays.  An address with no array behind it stands for an
    argument that fails [Array.isArray]. *)
Abbreviation heap := (gmap positive (list string)).

(** The keys of an [options] object the library itself reads; the others
    ([changeOrigin], [logLevel], [pathRewrite], ...) are passed through to
    the forwarding engine untouched. *)
Record Options : Type := mkOptions {
  loadBalancingStrategy : option string;
  circuitBreakerOptions : option CircuitBreaker.Options;
  responseHeaders : option (list (string * string))
}.

(** The object stored in [this.services].  [targets] is the caller's own
    array (the same object, not a copy); the balancer and the breaker are
    built by [registerService] and reachable only through the entry. *)
Record ServiceEntry : Type := mkEntry {
  targets : ref;
  loadBalancer : LoadBalancer.t;
  circuitBreaker : CircuitBreaker.t;
  options : Options
}.

Definition set_loadBalancer (lb : LoadBalancer.t) (service : ServiceEntry)
    : ServiceEntry :=
  mkEntry (targets service) lb (circuitBreaker service) (options service).

Definition set_circuitBreaker (cb : CircuitBreaker.t) (service : ServiceEntry)
    : ServiceEntry :=
  mkEntry (targets service) (loadBalancer service) cb (options service).

Record t : Type := mk {
  services : gmap string ServiceEntry;
  defaultOptions : Options
}.

Definition constructor (opts : Options) : t :=
  {| services := ∅; defaultOptions := opts |}.

(** [{...a, ...b}] at one key: the later object wins where it has the key. *)
Definition spread {A : Type} (a b : option A) : option A :=
  match b with
  | Some _ => b
  | None => a
  end.

(** [{ failureThreshold: 5, resetTimeout: 30000, requestTimeout: 10000,
       ...(options.circuitBreaker || {}) }] *)
Definition breakerOptions (opts : Options) : CircuitBreaker.Options :=
  let given :=
    default (CircuitBreaker.mkOptions None None None None)
            (circuitBreakerOptions opts) in
  {| CircuitBreaker.opt_failureThreshold :=
       spread (Some 5%Z) (CircuitBreaker.opt_failureThreshold given);
     CircuitBreaker.opt_resetTimeout :=
       spread (Some 30000%Z) (CircuitBreaker.opt_resetTimeout given);
     CircuitBreaker.opt_halfOpenSuccessThreshold :=
       CircuitBreaker.opt_halfOpenSuccessThreshold given;
     CircuitBreaker.opt_requestTimeout :=
       spread (Some 10000%Z) (CircuitBreaker.opt_requestTimeout given) |}.

Definition serviceOptions (defaults opts : Options) : Options :=
  {| loadBalancingStrategy :=
       spread (loadBalancingStrategy defaults) (loadBalancingStrategy opts);
     circuitBreakerOptions := Some (breakerOptions opts);
     responseHeaders :=
       spread (responseHeaders defaults) (responseHeaders opts) |}.

Definition registerService (h : heap) (serviceName : string)
    (targetsArg : ref) (opts : Options) (sp : t) : outcome unit * t :=
  match h !! targetsArg with
  | None => (Throws "Targets must be a non-empty array of URLs", sp)
  | Some ts =>
      if length ts =? 0 then
        (Throws "Targets must be a non-empty array of URLs", sp)
      else
        let sopts := serviceOptions (defaultOptions sp) opts in
        let lb :=
          LoadBalancer.constructor ts
            (str_or (loadBalancingStrategy sopts) "round-robin") in
        (* [serviceOptions.circuitBreaker] is [breakerOptions opts] *)
        let cb := CircuitBreaker.constructor (breakerOptions opts) in
        (Returns tt,
         mk (<[serviceName := mkEntry targetsArg lb cb sopts]> (services sp))
            (defaultOptions sp))
  end.

Definition quote : string := String (Ascii.ascii_of_nat 34) EmptyString.

(** [getServiceMiddleware] looks the service up once; the hooks it hands to
    the forwarding engine close over the entry found. *)
Definition getServiceMiddleware (serviceName : string) (sp : t)
    : outcome ServiceEntry :=
  match services sp !! serviceName with
  | None =>
      Throws ("Service " ++ quote ++ serviceName ++ quote ++ " is not registered")
  | Some service => Returns service
  end.

(** The [router] hook: the engine calls it once per request to resolve the
    upstream.  The thrown error carries [statusCode = 503]. *)
Definition router (now : Z) (u : LoadBalancer.sample) (service : ServiceEntry)
    : outcome (option string) * ServiceEntry :=
  let '(isopen, cb) := CircuitBreaker.isOpen now (circuitBreaker service) in
  let service1 := set_circuitBreaker cb service in
  if isopen then
    (Throws "Service is unavailable (circuit open)", service1)
  else
    let '(target, lb) := LoadBalancer.getNextTarget u (loadBalancer service1) in
    (target, set_loadBalancer lb service1).

(** Truthiness of the [target] argument of [onError]. *)
Definition truthy (target : option string) : bool :=
  match target with
  | Some s => negb (String.eqb s EmptyString)
  | None => false
  end.

(** The [onError] hook, as far as it touches the entry; the 503 response it
    writes to [res] is not part of the state. *)
Definition onError (now : Z) (target : option string) (service : ServiceEntry)
    : ServiceEntry :=
  if truthy target then
    set_circuitBreaker
      (CircuitBreaker.recordFailure now (circuitBreaker service)) service
  else service.

(** The [onProxyRes] hook: the entry afterwards and the headers it sets on
    the response, in order. *)
Definition onProxyRes (now : Z) (statusCode : Z) (service : ServiceEntry)
    : ServiceEntry * list (string * string) :=
  let cb :=
    if (statusCode <? 500)%Z then
      CircuitBreaker.recordSuccess (circuitBreaker service)
    else CircuitBreaker.recordFailure now (circuitBreaker service) in
  (set_circuitBreaker cb service,
   default [] (responseHeaders (options service))).

Inductive Status : Type := UP | DOWN | DEGRADED.

#[global] Instance Status_eq_dec : EqDecision Status.
Proof. solve_decision. Defined.

(** One value of [health.services]. *)
Record ServiceHealth : Type := mkServiceHealth {
  status : Status;
  reportedTargets : option (list string);   (* the array behind [service.targets] *)
  circuitState : CircuitBreaker.Snapshot
}.

Record Health : Type := mkHealth {
  overall : Status;
  perService : gmap string ServiceHealth
}.

(** The body of the [forEach] callback for one service: [isOpen()] runs
    first, [getState()] after it.  [now] is the clock as that service's
    [isOpen()] reads it. *)
Definition visit (h : heap) (now : Z) (service : ServiceEntry)
    : ServiceHealth * ServiceEntry :=
  let '(isopen, cb) := CircuitBreaker.isOpen now (circuitBreaker service) in
  ({| status := if isopen then DOWN else UP;
      reportedTargets := h !! targets service;
      circuitState := CircuitBreaker.getState cb |},
   set_circuitBreaker cb service).

Definition anyDown (m : gmap string ServiceHealth) : bool :=
  existsb (fun s => bool_decide (status s.2 = DOWN)) (map_to_list m).

(** The handler returned by [getHealthMiddleware()]: the JSON it sends and
    the registry afterwards.  [clock name] is the time at which the breaker
    of service [name] is queried.  Every service is visited, but
    [health.services] is a plain object: assigning the report of a service
    named [__proto__] sets the object's prototype and adds no property, so
    that report is neither seen by [Object.values] nor sent. *)
Definition getHealthMiddleware (h : heap) (clock : string → Z) (sp : t)
    : Health * t :=
  let visited :=
    map_imap (fun name service => Some (visit h (clock name) service))
             (services sp) in
  let reports := delete "__proto__" (fst <$> visited) in
  ({| overall := if anyDown reports then DEGRADED else UP;
      perService := reports |},
   mk (snd <$> visited) (defaultOptions sp)).

(** What can happen to a running proxy: calls on its own API, the engine
    driving the hooks of a service's middleware, clients reaching into a
    service's balancer, and the caller writing to one of its own arrays. *)
Inductive event : Type :=
  | RegisterService (serviceName : string) (targetsArg : ref) (opts : Options)
  | Router (serviceName : string) (now : Z) (u : LoadBalancer.sample)
  | OnError (serviceName : string) (now : Z) (target : option string)
  | OnProxyRes (serviceName : string) (now : Z) (statusCode : Z)
  | HealthQuery (clock : string → Z)
  | Balancer (serviceName : string) (o : LoadBalancer.op)
  | ArrayWrite (r : ref) (contents : list string).

(** A hook acts on the entry its middleware captured.  The events address
    that entry by name: they stand for middleware obtained from
    [getServiceMiddleware] since the name was last registered. *)
Definition on_service (serviceName : string) (f : ServiceEntry → ServiceEntry)
    (sp : t) : t :=
  mk (alter f serviceName (services sp)) (defaultOptions sp).

Definition on_balancer (f : LoadBalancer.t → LoadBalancer.t)
    (service : ServiceEntry) : ServiceEntry :=
  set_loadBalancer (f (loadBalancer service)) service.

Definition react (w : heap * t) (e : event) : heap * t :=
  let '(h, sp) := w in
  match e with
  | RegisterService name r opts => (h, snd (registerService h name r opts sp))
  | Router name now u => (h, on_service name (fun s => snd (router now u s)) sp)
  | OnError name now target => (h, on_service name (onError now target) sp)
  | OnProxyRes name now code =>
      (h, on_service name (fun s => fst (onProxyRes now code s)) sp)
  | HealthQuery clock => (h, snd (getHealthMiddleware h clock sp))
  | Balancer name o =>
      (h, on_service name (on_balancer (fun lb => LoadBalancer.step lb o)) sp)
  | ArrayWrite r contents => (<[r := contents]> h, sp)
  end.

Definition reacts (es : list event) (w : heap * t) : heap * t :=
  foldl react w es.

(** How the forwarding engine reports a forward it attempted: the backend
    answered with a status code, or the transport failed. *)
Inductive completion : Type :=
  | Responded (statusCode : Z)
  | Failed.

(** One routed request seen from the entry: the router resolves a target
    and the engine then reports the forward through exactly one hook.  When
    the router throws nothing is forwarded and no hook runs. *)
Definition handle (now1 now2 : Z) (u : LoadBalancer.sample) (c : completion)
    (service : ServiceEntry) : outcome (option string) * ServiceEntry :=
  let '(r, service1) := router now1 u service in
  match r with
  | Throws _ => (r, service1)
  | Returns target =>
      match c with
      | Responded code => (r, fst (onProxyRes now2 code service1))
      | Failed => (r, onError now2 target service1)
      end
  end.

(** An event that does not register [serviceName] again. *)
Definition keeps_name (serviceName : string) (e : event) : Prop :=
  match e with
  | RegisterService name _ _ => name ≠ serviceName
  | _ => True
  end.

(** An event that is not the caller writing to the array at [r]. *)
Definition keeps_array (r : ref) (e : event) : Prop :=
  match e with
  | ArrayWrite r' _ => r' ≠ r
  | _ => True
  end.

(** The entry [registerService] stores for a non-empty array [ts] at [r]. *)
Definition entryFor (sp : t) (r : ref) (ts : list string) (opts : Options)
    : ServiceEntry :=
  let sopts := serviceOptions (defaultOptions sp) opts in
  mkEntry r
    (LoadBalancer.constructor ts (str_or (loadBalancingStrategy sopts) "round-robin"))
    (CircuitBreaker.constructor (breakerOptions opts))
    sopts.

(** The entry of [serviceName] holds the array at [r] in its [targets]
    field. *)
Definition bound_to (serviceName : string) (r : ref) (sp : t) : Prop :=
  ∃ service, services sp !! serviceName = Some service ∧ targets service = r.

(** One request as the handler sees it: the clock when the router runs,
    the clock when the forward completes, the reading of [Math.random()]
    and how the forward ended. *)
Record request : Type := mkRequest {
  arrival : Z;
  completed : Z;
  draw : LoadBalancer.sample;
  result : completion
}.

(** Requests handled one after the other. *)
Definition handles (reqs : list request) (service : ServiceEntry) : ServiceEntry :=
  foldl (fun s r => (handle (arrival r) (completed r) (draw r) (result r) s).2)
        service reqs.

(** A forward the handler counts as a failure: a transport error, or an
    answer with a status of 500 or more. *)
Definition failing (c : completion) : Prop :=
  match c with
  | Responded code => (500 ≤ code)%Z
  | Failed => True
  end.

End ServiceProxy.

(** * Properties *)

(** ** Circuit breaker *)

Section BreakerProperties.

Import CircuitBreaker.
Local Open Scope Z_scope.

Implicit Types (cb : CircuitBreaker.t) (now : Z) (times : list Z).

(** The setters and transitions never touch the configured thresholds. *)
Lemma recordFailure_settings now cb :
  failureThreshold (recordFailure now cb) = failureThreshold cb
  ∧ resetTimeout (recordFailure now cb) = resetTimeout cb
  ∧ halfOpenSuccessThreshold (recordFailure now cb) = halfOpenSuccessThreshold cb.
Proof.
  unfold recordFailure.
  repeat (case_match; simpl); auto.
Qed.

Lemma recordSuccess_settings cb :
  failureThreshold (recordSuccess cb) = failureThreshold cb
  ∧ resetTimeout (recordSuccess cb) = resetTimeout cb
  ∧ halfOpenSuccessThreshold (recordSuccess cb) = halfOpenSuccessThreshold cb.
Proof.
  unfold recordSuccess.
  repeat (case_match; simpl); auto.
Qed.

(** A failure recorded while CLOSED and still short of the threshold only
    counts. *)
Lemma recordFailure_closed_below now cb :
  state cb = CLOSED →
  failureCount cb + 1 < failureThreshold cb →
  recordFailure now cb =
    set_successCount 0
      (set_failureCount (failureCount cb + 1)
         (set_lastFailureTime (Some now) cb)).
Proof.
  intros Hst Hlt. unfold recordFailure. simpl. rewrite Hst. simpl.
  destruct (Z.leb_spec (failureThreshold cb) (failureCount cb + 1)); [lia|].
  reflexivity.
Qed.

(** The failure that reaches the threshold opens the circuit. *)
Lemma recordFailure_closed_reach now cb :
  state cb = CLOSED →
  failureThreshold cb ≤ failureCount cb + 1 →
  state (recordFailure now cb) = OPEN
  ∧ successCount (recordFailure now cb) = 0
  ∧ failureCount (recordFailure now cb) = failureCount cb + 1
  ∧ lastFailureTime (recordFailure now cb) = Some now.
Proof.
  intros Hst Hle. unfold recordFailure. simpl. rewrite Hst. simpl.
  destruct (Z.leb_spec (failureThreshold cb) (failureCount cb + 1)); [|lia].
  auto.
Qed.

Lemma recordFailures_snoc times now cb :
  recordFailures (times ++ [now]) cb = recordFailure now (recordFailures times cb).
Proof. unfold recordFailures. by rewrite foldl_app. Qed.

(** Failures short of the threshold leave the circuit CLOSED and are all
    counted. *)
Lemma recordFailures_below times :
  ∀ cb,
    state cb = CLOSED →
    failureCount cb + Z.of_nat (length times) < failureThreshold cb →
    state (recordFailures times cb) = CLOSED
    ∧ failureCount (recordFailures times cb)
      = failureCount cb + Z.of_nat (length times)
    ∧ failureThreshold (recordFailures times cb) = failureThreshold cb.
Proof.
  induction times as [|now times IH]; intros cb Hst Hlt.
  - simpl. rewrite Z.add_0_r. auto.
  - simpl in Hlt. change (recordFailures (now :: times) cb)
      with (recordFailures times (recordFailure now cb)).
    rewrite recordFailure_closed_below by (done || lia).
    destruct (IH (set_successCount 0
                    (set_failureCount (failureCount cb + 1)
                       (set_lastFailureTime (Some now) cb)))) as (H1 & H2 & H3).
    + done.
    + simpl. lia.
    + simpl in *. rewrite H1, H2, H3. repeat split; lia.
Qed.

(** The exact count of failures opens it. *)
Lemma recordFailures_reach times cb :
  state cb = CLOSED →
  0 < Z.of_nat (length times) →
  failureCount cb + Z.of_nat (length times) = failureThreshold cb →
  state (recordFailures times cb) = OPEN.
Proof.
  intros Hst Hpos Heq.
  destruct (decide (times = [])) as [->|Hne]; [simpl in Hpos; lia|].
  destruct (exists_last Hne) as (front & now & ->).
  rewrite length_app in Heq. simpl in Heq.
  rewrite recordFailures_snoc.
  destruct (recordFailures_below front cb) as (H1 & H2 & H3); [done|lia|].
  apply recordFailure_closed_reach; [done|]. lia.
Qed.

Lemma recordSuccess_closed cb :
  state cb = CLOSED →
  recordSuccess cb = set_failureCount 0 cb.
Proof. intros Hst. unfold recordSuccess. simpl. by rewrite Hst. Qed.

(** A breaker built with a non-zero [failureThreshold] starts CLOSED with
    empty counters and that threshold. *)
Lemma constructor_fresh options (F : Z) :
  opt_failureThreshold options = Some F →
  F ≠ 0 →
  state (constructor options) = CLOSED
  ∧ failureCount (constructor options) = 0
  ∧ successCount (constructor options) = 0
  ∧ failureThreshold (constructor options) = F.
Proof.
  intros HF Hne. unfold constructor. simpl. rewrite HF. simpl.
  destruct (Z.eqb_spec F 0); done.
Qed.

(** C3 — three facts about a breaker whose threshold is [F >= 1].
    Started CLOSED with no failure counted, it is still CLOSED after any
    run of fewer than [F] failures and OPEN after a run of exactly [F].
    One success recorded while CLOSED leaves it CLOSED with the failure
    counter at 0.  Hence [F-1] failures, a success and [F-1] more failures
    leave it CLOSED. *)
Theorem closed_opens_at_threshold (F : Z) cb :
  1 ≤ F →
  failureThreshold cb = F →
  state cb = CLOSED →
  failureCount cb = 0 →
  (∀ times, Z.of_nat (length times) < F →
     state (recordFailures times cb) = CLOSED)
  ∧ (∀ times, Z.of_nat (length times) = F →
     state (recordFailures times cb) = OPEN)
  ∧ (∀ cb', state cb' = CLOSED →
     state (recordSuccess cb') = CLOSED ∧ failureCount (recordSuccess cb') = 0)
  ∧ (∀ before after,
     Z.of_nat (length before) = F - 1 →
     Z.of_nat (length after) = F - 1 →
     state (recordFailures after (recordSuccess (recordFailures before cb)))
     = CLOSED).
Proof.
  intros HF Hth Hst Hfc. repeat split.
  - intros times Hlen.
    by apply recordFailures_below; [|lia].
  - intros times Hlen.
    apply recordFailures_reach; [done|lia|lia].
  - by rewrite recordSuccess_closed.
  - by rewrite recordSuccess_closed.
  - intros before after Hb Ha.
    destruct (recordFailures_below before cb) as (H1 & H2 & H3); [done|lia|].
    rewrite recordSuccess_closed by done.
    apply recordFailures_below; simpl; [done|lia].
Qed.

(** The breaker [new CircuitBreaker({ failureThreshold: 3 })] opens at its
    third failure and not before, whatever the clock reads. *)
Lemma closed_opens_at_threshold_witness :
  let cb := constructor (mkOptions (Some 3) None None None) in
  state (recordFailures [10; 20] cb) = CLOSED
  ∧ state (recordFailures [10; 20; 30] cb) = OPEN
  ∧ state (recordFailures [50; 60] (recordSuccess (recordFailures [10; 20] cb)))
    = CLOSED.
Proof.
  intros cb.
  destruct (closed_opens_at_threshold 3 cb) as (H1 & H2 & _ & H4);
    [lia | reflexivity | reflexivity | reflexivity |].
  split; [apply H1; simpl; lia|].
  split; [apply H2; reflexivity|].
  apply H4; reflexivity.
Defined.

(** C4 — querying an OPEN breaker.  While the time since the last recorded
    failure does not exceed [resetTimeout], [isOpen()] answers true and
    changes nothing.  Once it exceeds [resetTimeout], the same call moves
    the breaker to HALF_OPEN with the success counter cleared, every other
    field kept, and answers false. *)
Theorem isOpen_when_open now cb :
  state cb = OPEN →
  (elapsed now cb ≤ resetTimeout cb → isOpen now cb = (true, cb))
  ∧ (resetTimeout cb < elapsed now cb →
     isOpen now cb = (false, transitionToHalfOpen cb)
     ∧ state (isOpen now cb).2 = HALF_OPEN
     ∧ successCount (isOpen now cb).2 = 0
     ∧ failureCount (isOpen now cb).2 = failureCount cb
     ∧ lastFailureTime (isOpen now cb).2 = lastFailureTime cb).
Proof.
  intros Hst. unfold isOpen. rewrite Hst. simpl.
  destruct (Z.ltb_spec (resetTimeout cb) (elapsed now cb)) as [Hlt|Hge].
  - split; [lia|]. intros _. simpl. auto.
  - split; [|lia]. intros _. by rewrite Hst.
Qed.

(** A breaker opened at time 1000 with a 30 s timeout: still open at
    31000, half-open at 31001. *)
Lemma isOpen_when_open_witness :
  let cb := recordFailures [1000] (constructor (mkOptions (Some 1) None None None)) in
  isOpen 31000 cb = (true, cb)
  ∧ isOpen 31001 cb = (false, transitionToHalfOpen cb).
Proof.
  intros cb.
  destruct (isOpen_when_open 31000 cb) as [Hearly _]; [reflexivity|].
  destruct (isOpen_when_open 31001 cb) as [_ Hlate]; [reflexivity|].
  split.
  - apply Hearly. vm_compute. discriminate.
  - apply Hlate. reflexivity.
Defined.

(** A success recorded while HALF_OPEN and still short of the threshold
    is counted and nothing else happens. *)
Lemma recordSuccess_half_open_below cb :
  state cb = HALF_OPEN →
  successCount cb + 1 < halfOpenSuccessThreshold cb →
  recordSuccess cb = set_successCount (successCount cb + 1) (set_failureCount 0 cb).
Proof.
  intros Hst Hlt. unfold recordSuccess. simpl. rewrite Hst. simpl.
  destruct (Z.leb_spec (halfOpenSuccessThreshold cb) (successCount cb + 1)); [lia|].
  reflexivity.
Qed.

(** The success that reaches the threshold closes the circuit. *)
Lemma recordSuccess_half_open_reach cb :
  state cb = HALF_OPEN →
  halfOpenSuccessThreshold cb ≤ successCount cb + 1 →
  recordSuccess cb
  = transitionToClosed (set_successCount (successCount cb + 1) (set_failureCount 0 cb)).
Proof.
  intros Hst Hle. unfold recordSuccess. simpl. rewrite Hst. simpl.
  destruct (Z.leb_spec (halfOpenSuccessThreshold cb) (successCount cb + 1)); [|lia].
  reflexivity.
Qed.

Lemma recordSuccesses_below (n : nat) :
  ∀ cb,
    state cb = HALF_OPEN →
    successCount cb + Z.of_nat n < halfOpenSuccessThreshold cb →
    state (recordSuccesses n cb) = HALF_OPEN
    ∧ successCount (recordSuccesses n cb) = successCount cb + Z.of_nat n
    ∧ halfOpenSuccessThreshold (recordSuccesses n cb) = halfOpenSuccessThreshold cb.
Proof.
  induction n as [|n IH]; intros cb Hst Hlt.
  - simpl. rewrite Z.add_0_r. auto.
  - destruct (IH cb) as (H1 & H2 & H3); [done|lia|].
    unfold recordSuccesses in *. simpl.
    rewrite recordSuccess_half_open_below by (done || lia).
    simpl. rewrite H1, H2, H3. repeat split; lia.
Qed.

(** C5 — a HALF_OPEN breaker.  A success short of
    [halfOpenSuccessThreshold] raises the success counter by one and keeps
    the state; the success with which the counter reaches the threshold
    closes the circuit with both counters at zero.  So, counted from an
    empty success counter, the circuit is still HALF_OPEN after fewer
    successes than the threshold and CLOSED with both counters zero after
    exactly that many.  A single failure opens the circuit whatever the
    success counter holds. *)
Theorem half_open_transitions cb :
  state cb = HALF_OPEN →
  (successCount cb + 1 < halfOpenSuccessThreshold cb →
     state (recordSuccess cb) = HALF_OPEN
     ∧ successCount (recordSuccess cb) = successCount cb + 1)
  ∧ (halfOpenSuccessThreshold cb ≤ successCount cb + 1 →
     state (recordSuccess cb) = CLOSED
     ∧ successCount (recordSuccess cb) = 0
     ∧ failureCount (recordSuccess cb) = 0)
  ∧ (∀ n : nat,
     successCount cb = 0 →
     Z.of_nat n < halfOpenSuccessThreshold cb →
     state (recordSuccesses n cb) = HALF_OPEN
     ∧ successCount (recordSuccesses n cb) = Z.of_nat n)
  ∧ (∀ n : nat,
     successCount cb = 0 →
     (1 ≤ n)%nat →
     Z.of_nat n = halfOpenSuccessThreshold cb →
     state (recordSuccesses n cb) = CLOSED
     ∧ successCount (recordSuccesses n cb) = 0
     ∧ failureCount (recordSuccesses n cb) = 0)
  ∧ (∀ now,
     state (recordFailure now cb) = OPEN
     ∧ successCount (recordFailure now cb) = 0).
Proof.
  intros Hst.
  split; [intros Hlt; by rewrite recordSuccess_half_open_below|].
  split; [intros Hle; by rewrite recordSuccess_half_open_reach|].
  split.
  { intros n Hzero Hlt.
    destruct (recordSuccesses_below n cb) as (E1 & E2 & _); [done|lia|].
    split; [done|lia]. }
  split.
  { intros n Hzero Hpos Heq.
    destruct n as [|n]; [lia|].
    destruct (recordSuccesses_below n cb) as (E1 & E2 & E3); [done|lia|].
    change (recordSuccesses (S n) cb) with (recordSuccess (recordSuccesses n cb)).
    rewrite recordSuccess_half_open_reach; [done|done|lia]. }
  intros now. unfold recordFailure. simpl. rewrite Hst. done.
Qed.

(** A breaker with the default threshold of three, half-open after its
    timeout: two successes leave it HALF_OPEN, the third closes it, and a
    failure after two successes opens it. *)
Lemma half_open_transitions_witness :
  let cb := (isOpen 40000
               (recordFailures [1000]
                  (constructor (mkOptions (Some 1) None None None)))).2 in
  state cb = HALF_OPEN
  ∧ state (recordSuccesses 2 cb) = HALF_OPEN
  ∧ state (recordSuccesses 3 cb) = CLOSED
  ∧ state (recordFailure 41000 (recordSuccesses 2 cb)) = OPEN.
Proof.
  intros cb.
  destruct (half_open_transitions cb) as (_ & _ & Hfew & Hall & _);
    [reflexivity|].
  destruct (half_open_transitions (recordSuccesses 2 cb)) as (_ & _ & _ & _ & Hfail);
    [reflexivity|].
  split; [reflexivity|].
  split; [apply (Hfew 2%nat); reflexivity|].
  split; [apply (Hall 3%nat); [reflexivity | lia | reflexivity]|].
  apply Hfail.
Defined.

End BreakerProperties.

(** ** Load balancer *)

Section BalancerProperties.

Import LoadBalancer.

Implicit Types (lb : LoadBalancer.t) (ts : list string) (u : sample).

(** *** Round-robin *)

(** Reading a list from position [c] and wrapping around. *)
Lemma lookup_wrapped ts (c i : nat) :
  c < length ts → i < length ts →
  (drop c ts ++ take c ts) !! i = ts !! ((c + i) mod length ts).
Proof.
  intros Hc Hi.
  destruct (decide (c + i < length ts)) as [Hlt|Hge].
  - rewrite lookup_app_l by (rewrite length_drop; lia).
    rewrite lookup_drop. by rewrite Nat.mod_small.
  - rewrite lookup_app_r by (rewrite length_drop; lia).
    rewrite length_drop.
    rewrite lookup_take_lt by lia.
    f_equal.
    apply (Nat.mod_unique _ _ 1); lia.
Qed.

(** One call under round-robin: the target at the cursor is returned and
    the cursor moves on by one, modulo the length. *)
Lemma getNextTarget_round_robin u lb :
  is_round_robin lb →
  cursor_valid lb →
  getNextTarget u lb
  = (Returns (targets lb !! currentIndex lb),
     set_currentIndex ((currentIndex lb + 1) mod length (targets lb)) lb).
Proof.
  intros [Hr Hl] Hc. unfold cursor_valid in Hc. unfold getNextTarget.
  destruct (Nat.eqb_spec (length (targets lb)) 0) as [?|_]; [lia|].
  destruct (Nat.eqb_spec (length (targets lb)) 1) as [H1|_].
  - assert (currentIndex lb = 0) as Hz by lia.
    rewrite H1, Hz. destruct lb; simpl in *. by subst.
  - apply String.eqb_neq in Hr, Hl. by rewrite Hr, Hl.
Qed.

(** Calls in a row: call number [i] returns the target [i] places after
    the cursor, wrapping around. *)
Lemma getNextTargets_round_robin (us : list sample) :
  ∀ lb,
    is_round_robin lb →
    cursor_valid lb →
    getNextTargets us lb
    = ((λ i, Returns (targets lb !! ((currentIndex lb + i) mod length (targets lb))))
         <$> seq 0 (length us),
       set_currentIndex ((currentIndex lb + length us) mod length (targets lb)) lb).
Proof.
  induction us as [|u us IH]; intros lb Hrr Hc.
  - simpl. rewrite Nat.add_0_r, Nat.mod_small by done. by destruct lb.
  - simpl. rewrite getNextTarget_round_robin by done.
    set (lb1 := set_currentIndex _ lb).
    assert (is_round_robin lb1) as Hrr1 by done.
    assert (cursor_valid lb1) as Hc1.
    { unfold cursor_valid, lb1. simpl. apply Nat.mod_upper_bound.
      unfold cursor_valid in Hc. lia. }
    rewrite (IH lb1 Hrr1 Hc1). subst lb1. simpl.
    rewrite Nat.add_0_r, (Nat.mod_small (currentIndex lb)) by done.
    f_equal.
    + f_equal. rewrite <- fmap_S_seq, <- list_fmap_compose.
      apply list_fmap_ext. intros _ i _. simpl.
      rewrite Nat.Div0.add_mod_idemp_l. do 3 f_equal. lia.
    + unfold set_currentIndex. simpl. f_equal.
      rewrite Nat.Div0.add_mod_idemp_l. f_equal. lia.
Qed.

(** C6 — round-robin over [N] targets, the cursor at a position [c] of the
    list.  [N] consecutive calls return the targets at positions [c],
    [c+1], ..., [N-1], [0], ..., [c-1] in that order, which is every
    position of the list exactly once; after any [k] calls the cursor is at
    [(c + k) mod N] and nothing else has changed, so after [N] calls the
    balancer is as it was. *)
Theorem round_robin_window (us : list sample) lb :
  is_round_robin lb →
  cursor_valid lb →
  let N := length (targets lb) in
  let c := currentIndex lb in
  (length us = N →
     (getNextTargets us lb).1
     = (λ target, Returns (Some target))
         <$> (drop c (targets lb) ++ take c (targets lb))
     ∧ (getNextTargets us lb).2 = lb)
  ∧ drop c (targets lb) ++ take c (targets lb) ≡ₚ targets lb
  ∧ (getNextTargets us lb).2 = set_currentIndex ((c + length us) mod N) lb.
Proof.
  intros Hrr Hc N c.
  split; [|split].
  - intros Hlen. rewrite getNextTargets_round_robin by done. simpl.
    rewrite Hlen. fold N c. split.
    + apply list_eq. intros i. rewrite !list_lookup_fmap.
      destruct (decide (i < N)) as [Hi|Hi].
      * rewrite lookup_seq_lt by done. simpl.
        rewrite lookup_wrapped by done. fold N.
        destruct (lookup_lt_is_Some_2 (targets lb) ((c + i) mod N)) as [x Hx].
        { apply Nat.mod_upper_bound. unfold N. unfold cursor_valid in Hc. lia. }
        by rewrite Hx.
      * rewrite lookup_seq_ge by lia.
        rewrite (lookup_ge_None_2 (drop c (targets lb) ++ take c (targets lb))); [done|].
        rewrite length_app, length_drop, length_take. fold N. lia.
    + replace ((c + N) mod N) with c.
      * by destruct lb.
      * apply (Nat.mod_unique _ _ 1); [done | lia].
  - rewrite Permutation_app_comm. by rewrite take_drop.
  - by rewrite getNextTargets_round_robin.
Qed.

(** Three targets with the cursor on the second: the window is
    [b], [c], [a] and the cursor is back on the second afterwards. *)
Lemma round_robin_window_witness :
  let lb := set_currentIndex 1 (constructor ["a"; "b"; "c"] "round-robin") in
  let us := [mkSample 0 1; mkSample 1 2; mkSample 2 3] in
  (getNextTargets us lb).1
  = [Returns (Some "b"); Returns (Some "c"); Returns (Some "a")]
  ∧ (getNextTargets us lb).2 = lb.
Proof.
  intros lb us.
  destruct (round_robin_window us lb) as (Hseq & _ & _).
  - split; discriminate.
  - unfold cursor_valid. simpl. lia.
  - apply Hseq. reflexivity.
Defined.

(** *** The counter object *)

Lemma read_own (counts : gmap string jsnum) k v :
  counts !! k = Some v → read counts k = Number v.
Proof. unfold read. by intros ->. Qed.

Lemma write_own (counts : gmap string jsnum) k v :
  is_Some (counts !! k) → write counts k v = <[k := v]> counts.
Proof.
  intros [w Hw]. unfold write.
  rewrite (bool_decide_eq_false_2 (counts !! k = None)) by congruence.
  by rewrite andb_false_r.
Qed.

Lemma write_plain (counts : gmap string jsnum) k v :
  k ≠ "__proto__" → write counts k v = <[k := v]> counts.
Proof.
  intros Hne. unfold write. apply String.eqb_neq in Hne. by rewrite Hne.
Qed.

Lemma write_proto (counts : gmap string jsnum) v :
  counts !! "__proto__" = None → write counts "__proto__" v = counts.
Proof.
  intros Hnone. unfold write. simpl. by rewrite bool_decide_eq_true_2.
Qed.

(** A write stores its value under the key or changes nothing. *)
Lemma write_cases (counts : gmap string jsnum) k v :
  write counts k v = <[k := v]> counts
  ∨ (k = "__proto__" ∧ counts !! k = None ∧ write counts k v = counts).
Proof.
  destruct (decide (k = "__proto__")) as [->|Hne]; [|left; by apply write_plain].
  destruct (counts !! "__proto__") as [w|] eqn:E.
  - left. apply write_own. by rewrite E.
  - right. split; [done|]. split; [done|]. by apply write_proto.
Qed.

(** *** Least connections *)

Lemma js_lt_counts counts a b x y :
  has_count counts a x → has_count counts b y →
  js_lt (read counts a) (read counts b) = (x <? y)%Z.
Proof.
  unfold has_count. intros Ha Hb.
  by rewrite (read_own _ _ _ Ha), (read_own _ _ _ Hb).
Qed.

(** The scan, started at the head of the list, stops on the first least
    counter. *)
Lemma least_first_least counts ts :
  ∀ first,
    head ts = Some first →
    (∀ t, t ∈ ts → ∃ n, has_count counts t n) →
    first_least counts ts (least counts ts first).
Proof.
  induction ts as [|x front IH] using rev_ind; intros first Hhead Hnum; [done|].
  unfold least. rewrite foldl_app. simpl. fold (least counts front first).
  destruct (Hnum x) as [nx Hx]; [apply elem_of_app; right; by left|].
  destruct front as [|y front'].
  - simpl in *. injection Hhead as <-.
    rewrite (js_lt_counts _ _ _ nx nx) by done. rewrite Z.ltb_irrefl.
    exists 0, nx. repeat split; [done| |lia].
    intros [|j] t m Ht Hm; [|done].
    assert (t = x) as -> by (simpl in Ht; congruence).
    unfold has_count in *. assert (m = nx) as -> by congruence. lia.
  - destruct (IH first) as (i & n & Hi & Hn & Hmin & Hbefore).
    { done. }
    { intros t Ht. apply Hnum. apply elem_of_app. by left. }
    set (m0 := least counts (y :: front') first) in *.
    rewrite (js_lt_counts _ _ _ nx n) by done.
    assert (i < length (y :: front')) as Hilen by (by eapply lookup_lt_Some).
    destruct (Z.ltb_spec nx n) as [Hlt|Hge].
    + exists (length (y :: front')), nx. repeat split.
      * by rewrite lookup_app_r, Nat.sub_diag.
      * done.
      * intros j t m Ht Hm.
        destruct (decide (j < length (y :: front'))) as [Hj|Hj].
        -- rewrite lookup_app_l in Ht by done.
           specialize (Hmin j t m Ht Hm). lia.
        -- rewrite lookup_app_r in Ht by lia.
           destruct (j - length (y :: front')) as [|?]; [|done].
           assert (t = x) as -> by (simpl in Ht; congruence).
           unfold has_count in *. assert (m = nx) as -> by congruence. lia.
      * intros j t m Hj Ht Hm.
        rewrite lookup_app_l in Ht by done.
        specialize (Hmin j t m Ht Hm). lia.
    + exists i, n. repeat split.
      * by rewrite lookup_app_l.
      * done.
      * intros j t m Ht Hm.
        destruct (decide (j < length (y :: front'))) as [Hj|Hj].
        -- rewrite lookup_app_l in Ht by done. by eapply Hmin.
        -- rewrite lookup_app_r in Ht by lia.
           destruct (j - length (y :: front')) as [|?]; [|done].
           assert (t = x) as -> by (simpl in Ht; congruence).
           unfold has_count in *. assert (m = nx) as -> by congruence. lia.
      * intros j t m Hj Ht Hm.
        rewrite lookup_app_l in Ht by lia. by eapply Hbefore.
Qed.

(** With two or more targets the least-connections strategy reaches
    [getLeastConnectionsTarget]. *)
Lemma getNextTarget_least_dispatch u lb :
  strategy lb = "least-connections" →
  2 ≤ length (targets lb) →
  getNextTarget u lb
  = (Returns (getLeastConnectionsTarget lb).1, (getLeastConnectionsTarget lb).2).
Proof.
  intros Hs Hlen. unfold getNextTarget. rewrite Hs.
  destruct (Nat.eqb_spec (length (targets lb)) 0) as [?|_]; [lia|].
  destruct (Nat.eqb_spec (length (targets lb)) 1) as [?|_]; [lia|].
  simpl. by destruct (getLeastConnectionsTarget lb).
Qed.

(** [getLeastConnectionsTarget] on a non-empty list whose targets all have
    counters: the scan result is returned and its counter raised. *)
Lemma getLeastConnectionsTarget_first_least lb :
  targets lb ≠ [] →
  (∀ t, t ∈ targets lb → ∃ n, has_count (connectionCounts lb) t n) →
  ∃ (target : string) (n : Z),
    getLeastConnectionsTarget lb
    = (Some target,
       set_connectionCounts (<[target := Num (n + 1)]> (connectionCounts lb)) lb)
    ∧ has_count (connectionCounts lb) target n
    ∧ first_least (connectionCounts lb) (targets lb) target.
Proof.
  intros Hne Hnum.
  destruct (targets lb) as [|first rest] eqn:Hts; [done|].
  pose proof (least_first_least (connectionCounts lb) (first :: rest) first
                eq_refl Hnum) as Hleast.
  destruct Hleast as (i & n & Hi & Hn & Hrest).
  exists (least (connectionCounts lb) (first :: rest) first), n.
  split; [|split; [done | by exists i, n]].
  unfold getLeastConnectionsTarget. rewrite Hts.
  cbn [default from_option id]. unfold has_count in Hn.
  rewrite (read_own _ _ _ Hn), write_own by (by rewrite Hn). done.
Qed.

(** C7 — least-connections over two or more targets, each with a counter.
    The call returns the target at the first position of the list whose
    counter is least (no counter is smaller, every earlier one is strictly
    larger), and the balancer it leaves has that counter raised by one and
    nothing else changed. *)
Theorem least_connections_selects u lb :
  strategy lb = "least-connections" →
  2 ≤ length (targets lb) →
  (∀ t, t ∈ targets lb → ∃ n, has_count (connectionCounts lb) t n) →
  ∃ (i : nat) (target : string) (n : Z),
    getNextTarget u lb
    = (Returns (Some target),
       set_connectionCounts (<[target := Num (n + 1)]> (connectionCounts lb)) lb)
    ∧ targets lb !! i = Some target
    ∧ has_count (connectionCounts lb) target n
    ∧ (∀ (j : nat) t m,
         targets lb !! j = Some t → has_count (connectionCounts lb) t m → (n ≤ m)%Z)
    ∧ (∀ (j : nat) t m,
         j < i → targets lb !! j = Some t → has_count (connectionCounts lb) t m →
         (n < m)%Z).
Proof.
  intros Hs Hlen Hnum.
  assert (targets lb ≠ []) as Hne by (intros E; rewrite E in Hlen; simpl in Hlen; lia).
  destruct (getLeastConnectionsTarget_first_least lb Hne Hnum)
    as (target & n & Hcall & Hn & (i & n' & Hi & Hn' & Hmin & Hbefore)).
  assert (n' = n) as -> by (unfold has_count in *; congruence).
  exists i, target, n.
  rewrite getNextTarget_least_dispatch, Hcall by done.
  by repeat split.
Qed.

(** Three targets with counters 2, 1, 1: the second is chosen, not the
    third, and its counter becomes 2. *)
Example least_connections_tie :
  getNextTarget (mkSample 0 1)
    (mk ["a"; "b"; "c"] "least-connections" 0
        (<["a" := Num 2]> (<["b" := Num 1]> (<["c" := Num 1]> ∅))))
  = (Returns (Some "b"),
     mk ["a"; "b"; "c"] "least-connections" 0
        (<["b" := Num 2]> (<["a" := Num 2]> (<["b" := Num 1]> (<["c" := Num 1]> ∅))))).
Proof. reflexivity. Qed.

Lemma least_connections_selects_witness :
  let lb := mk ["a"; "b"; "c"] "least-connections" 0
               (<["a" := Num 2]> (<["b" := Num 1]> (<["c" := Num 1]> ∅))) in
  ∃ (i : nat) (target : string) (n : Z),
    getNextTarget (mkSample 0 1) lb
    = (Returns (Some target),
       set_connectionCounts (<[target := Num (n + 1)]> (connectionCounts lb)) lb)
    ∧ targets lb !! i = Some target
    ∧ has_count (connectionCounts lb) target n
    ∧ (∀ (j : nat) t m,
         targets lb !! j = Some t → has_count (connectionCounts lb) t m → (n ≤ m)%Z)
    ∧ (∀ (j : nat) t m,
         j < i → targets lb !! j = Some t → has_count (connectionCounts lb) t m →
         (n < m)%Z).
Proof.
  intros lb.
  apply (least_connections_selects (mkSample 0 1) lb).
  - reflexivity.
  - simpl. lia.
  - intros t Ht. simpl in Ht.
    apply elem_of_cons in Ht as [->|Ht]; [exists 2%Z; reflexivity|].
    apply elem_of_cons in Ht as [->|Ht]; [exists 1%Z; reflexivity|].
    apply elem_of_cons in Ht as [->|Ht]; [exists 1%Z; reflexivity|].
    by apply elem_of_nil in Ht.
Defined.

(** C7, as worded, fails on the code: least-connections and two targets do
    not make every target have a counter.  A balancer built from
    [a, a, b] has, after [removeTarget(a)], the targets [a, b] and a
    counter for [b] only; [getNextTarget()] returns [a], whose missing
    counter compares as no less and no more than any number, and leaves
    NaN in its place.  A balancer built from [__proto__, b] has no counter
    for [__proto__] from the start and returns it on every call, the
    counters staying as they were. *)
Lemma least_connections_without_counter :
  let lb := run [RemoveTarget "a"] (constructor ["a"; "a"; "b"] "least-connections") in
  let lb' := constructor ["__proto__"; "b"] "least-connections" in
  (strategy lb = "least-connections"
   ∧ targets lb = ["a"; "b"]
   ∧ connectionCounts lb = {[ "b" := Num 0 ]}
   ∧ ∀ u,
       getNextTarget u lb
       = (Returns (Some "a"),
          set_connectionCounts (<["a" := NaN]> (connectionCounts lb)) lb)
       ∧ ¬ ∃ (i : nat) (target : string) (n : Z),
             getNextTarget u lb
             = (Returns (Some target),
                set_connectionCounts
                  (<[target := Num (n + 1)]> (connectionCounts lb)) lb)
             ∧ targets lb !! i = Some target
             ∧ has_count (connectionCounts lb) target n)
  ∧ (strategy lb' = "least-connections"
     ∧ targets lb' = ["__proto__"; "b"]
     ∧ connectionCounts lb' = {[ "b" := Num 0 ]}
     ∧ ∀ u, getNextTarget u lb' = (Returns (Some "__proto__"), lb')).
Proof.
  intros lb lb'. split.
  - split; [reflexivity|]. split; [reflexivity|].
    split; [by apply map_eq; intros k; vm_compute|].
    intros u. split; [reflexivity|].
    intros (i & target & n & Hcall & _ & Hn).
    assert (target = "a") as -> by (vm_compute in Hcall; congruence).
    vm_compute in Hn. discriminate.
  - split; [reflexivity|]. split; [reflexivity|].
    split; [by apply map_eq; intros k; vm_compute|].
    intros u. reflexivity.
Qed.

(** *** The invariant of the balancer state *)

(** The counter object built by the constructor: a counter of 0 under
    every listed name but [__proto__]. *)
Lemma constructor_counts ts :
  ∀ (acc : gmap string jsnum) (k : string),
    acc !! "__proto__" = None →
    foldl (λ acc target, write acc target (Num 0)) acc ts !! k
    = if decide (k ∈ ts ∧ k ≠ "__proto__") then Some (Num 0) else acc !! k.
Proof.
  induction ts as [|t ts IH]; intros acc k Hacc; cbn [foldl].
  - rewrite decide_False; [done|]. intros [H _]. by apply elem_of_nil in H.
  - assert (write acc t (Num 0) !! "__proto__" = None) as Hacc'.
    { destruct (decide (t = "__proto__")) as [->|Hne].
      - by rewrite write_proto.
      - by rewrite write_plain, lookup_insert_ne. }
    rewrite IH by done.
    destruct (decide (k ∈ ts ∧ k ≠ "__proto__")) as [[Hin Hk]|Hnot].
    + rewrite decide_True; [done|]. split; [by right | done].
    + destruct (decide (k = t)) as [->|Hne].
      * destruct (decide (t = "__proto__")) as [->|Hproto].
        -- rewrite write_proto by done. rewrite decide_False; [done|].
           by intros [_ ?].
        -- rewrite write_plain, lookup_insert_eq by done.
           rewrite decide_True; [done|]. split; [by left | done].
      * assert (write acc t (Num 0) !! k = acc !! k) as ->.
        { destruct (write_cases acc t (Num 0)) as [->|(_ & _ & ->)]; [|done].
          by rewrite lookup_insert_ne. }
        rewrite decide_False; [done|].
        intros [[?|?]%elem_of_cons Hk]; [done|]. by apply Hnot.
Qed.

Lemma constructor_well_formed ts strat :
  NoDup ts → "__proto__" ∉ ts → well_formed (constructor ts strat).
Proof.
  intros Hnd Hproto. split; [done|]. split; [|split].
  - unfold cursor_valid. simpl. destruct ts; [by right | left; simpl; lia].
  - unfold counters_match. simpl. apply set_eq. intros k.
    rewrite elem_of_dom, constructor_counts, elem_of_list_to_set by done.
    case_decide as Hk.
    + split; [by intros _; apply Hk | by eauto].
    + rewrite lookup_empty. split; [by intros []|].
      intros Hin. exfalso. apply Hk. split; [done|]. by intros ->.
  - intros k v. simpl. rewrite constructor_counts by done.
    case_decide; [|by rewrite lookup_empty].
    intros [= <-]. by exists 0%Z.
Qed.

Lemma indexOf_Some (x : string) ts (i : nat) :
  indexOf x ts = Some i → ts !! i = Some x.
Proof.
  revert i. induction ts as [|y ts IH]; intros i; simpl; [done|].
  destruct (String.eqb_spec y x) as [->|Hne].
  - by intros [= <-].
  - destruct (indexOf x ts) as [j|]; simpl; [|done].
    intros [= <-]. by apply IH.
Qed.

Lemma indexOf_None (x : string) ts :
  indexOf x ts = None → x ∉ ts.
Proof.
  induction ts as [|y ts IH]; simpl; [intros _; apply not_elem_of_nil|].
  destruct (String.eqb_spec y x) as [->|Hne]; [done|].
  destruct (indexOf x ts) as [j|]; simpl; [done|].
  intros _ [?|?]%elem_of_cons; [congruence|]. by apply IH.
Qed.

Lemma indexOf_is_Some (x : string) ts :
  x ∈ ts → is_Some (indexOf x ts).
Proof.
  intros Hin. destruct (indexOf x ts) eqn:E; [eauto|].
  by apply indexOf_None in E.
Qed.

(** Deleting the one occurrence of [x] from a duplicate-free list. *)
Lemma delete_nodup (x : string) ts (i : nat) :
  NoDup ts → ts !! i = Some x →
  NoDup (delete i ts)
  ∧ (list_to_set (delete i ts) : gset string) = list_to_set ts ∖ {[x]}
  ∧ S (length (delete i ts)) = length ts.
Proof.
  intros Hnd Hi.
  assert (i < length ts) as Hlt by (by eapply lookup_lt_Some).
  rewrite delete_take_drop.
  rewrite <- (take_drop_middle ts i x Hi) in Hnd.
  apply NoDup_app in Hnd as (Ha & Hab & Hb).
  apply NoDup_cons in Hb as (Hxb & Hb).
  assert (x ∉ take i ts) as Hxa.
  { intros Hin. apply (Hab x Hin). by left. }
  split; [|split].
  - apply NoDup_app. split; [done|]. split; [|done].
    intros y Hy Hyb. apply (Hab y Hy). by right.
  - rewrite <- (take_drop_middle ts i x Hi) at 3.
    rewrite !list_to_set_app_L, list_to_set_cons.
    apply set_eq. intros y.
    rewrite !elem_of_difference, !elem_of_union, !elem_of_list_to_set,
      !elem_of_singleton.
    split; [|tauto].
    intros [Hy|Hy]; (split; [tauto|]); intros ->; done.
  - rewrite length_app, length_take, length_drop. lia.
Qed.

Lemma addTarget_well_formed target lb :
  target ≠ "__proto__" →
  well_formed lb → well_formed (addTarget target lb).
Proof.
  intros Hproto (Hnd & Hcur & Hdom & Hnum). unfold addTarget.
  case_bool_decide as Hin; [done|].
  rewrite write_plain by done.
  split; [|split; [|split]]; simpl.
  - apply NoDup_app. split; [done|]. split; [|apply NoDup_singleton].
    intros y Hy ->%list_elem_of_singleton. done.
  - left. unfold cursor_valid in *. simpl. rewrite length_app. simpl.
    destruct Hcur as [?|[_ ->]]; lia.
  - unfold counters_match in *. simpl.
    rewrite dom_insert_L, Hdom, list_to_set_app_L, list_to_set_singleton_L.
    apply union_comm_L.
  - intros k v. simpl. rewrite lookup_insert.
    case_decide; [intros [= <-]; by exists 0%Z | apply Hnum].
Qed.

Lemma removeTarget_well_formed target lb :
  well_formed lb → well_formed (removeTarget target lb).
Proof.
  intros (Hnd & Hcur & Hdom & Hnum). unfold removeTarget.
  destruct (indexOf target (targets lb)) as [i|] eqn:Hidx; [|done].
  apply indexOf_Some in Hidx.
  destruct (delete_nodup target (targets lb) i Hnd Hidx) as (Hnd' & Hset & Hlen).
  assert (well_formed
            (set_connectionCounts (delete target (connectionCounts lb))
               (set_targets (delete i (targets lb)) lb)) ∨
          length (delete i (targets lb)) ≤ currentIndex lb) as Hcases.
  { destruct (decide (length (delete i (targets lb)) ≤ currentIndex lb)); [by right|].
    left. split; [done|]. split; [|split]; simpl.
    - left. unfold cursor_valid. simpl. lia.
    - unfold counters_match in *. simpl. by rewrite dom_delete_L, Hdom, Hset.
    - intros k v. simpl. rewrite lookup_delete.
      case_decide; [done | apply Hnum]. }
  simpl. destruct (Nat.leb_spec (length (delete i (targets lb))) (currentIndex lb))
    as [Hle|Hgt].
  - split; [done|]. split; [|split]; simpl.
    + unfold cursor_valid. simpl.
      destruct (delete i (targets lb)); [by right | left; simpl; lia].
    + unfold counters_match in *. simpl. by rewrite dom_delete_L, Hdom, Hset.
    + intros k v. simpl. rewrite lookup_delete.
      case_decide; [done | apply Hnum].
  - destruct Hcases as [?|?]; [done | lia].
Qed.

Lemma well_formed_has_count lb :
  well_formed lb →
  ∀ target, target ∈ targets lb → ∃ n, has_count (connectionCounts lb) target n.
Proof.
  intros (_ & _ & Hdom & Hnum) target Hin.
  assert (target ∈ dom (connectionCounts lb)) as [v Hv]%elem_of_dom.
  { rewrite Hdom. by apply elem_of_list_to_set. }
  destruct (Hnum _ _ Hv) as (n & -> & _). by exists n.
Qed.

Lemma insert_existing_well_formed target (n : Z) lb :
  well_formed lb →
  target ∈ targets lb →
  (0 ≤ n)%Z →
  well_formed (set_connectionCounts (<[target := Num n]> (connectionCounts lb)) lb).
Proof.
  intros (Hnd & Hcur & Hdom & Hnum) Hin Hn.
  split; [done|]. split; [done|]. split.
  - unfold counters_match in *. simpl. rewrite dom_insert_L, Hdom.
    apply subseteq_union_1_L, singleton_subseteq_l.
    by apply elem_of_list_to_set.
  - intros k v. simpl. rewrite lookup_insert.
    case_decide; [intros [= <-]; by exists n | apply Hnum].
Qed.

Lemma getNextTarget_well_formed u lb :
  well_formed lb → well_formed (getNextTarget u lb).2.
Proof.
  intros Hwf. unfold getNextTarget.
  destruct (Nat.eqb_spec (length (targets lb)) 0) as [?|Hne]; [done|].
  destruct (Nat.eqb_spec (length (targets lb)) 1) as [?|_]; [done|].
  destruct (String.eqb (strategy lb) "random"); [done|].
  destruct (String.eqb (strategy lb) "least-connections").
  - unfold getLeastConnectionsTarget. simpl.
    destruct (targets lb) as [|first rest] eqn:Hts; [done|].
    destruct (least_first_least (connectionCounts lb) (first :: rest) first)
      as (i & n & Hi & Hn & _); [done | |].
    { rewrite <- Hts. by apply well_formed_has_count. }
    cbn [default from_option id].
    rewrite (read_own _ _ _ Hn), write_own by (by rewrite Hn). simpl.
    apply insert_existing_well_formed; [done | |].
    + rewrite Hts. by eapply list_elem_of_lookup_2.
    + destruct Hwf as (_ & _ & _ & Hnum).
      destruct (Hnum _ _ Hn) as (n' & [= <-] & ?). lia.
  - simpl. destruct Hwf as (Hnd & Hcur & Hdom & Hnum).
    split; [done|]. split; [|done].
    left. unfold cursor_valid. simpl. by apply Nat.mod_upper_bound.
Qed.

(** [releaseConnection] changes something only when the target has a
    counter above 0, which it lowers by one. *)
Lemma releaseConnection_cases target lb :
  releaseConnection target lb = lb
  ∨ ∃ n, has_count (connectionCounts lb) target n ∧ (0 < n)%Z
         ∧ releaseConnection target lb
           = set_connectionCounts
               (<[target := Num (n - 1)]> (connectionCounts lb)) lb.
Proof.
  unfold releaseConnection, read.
  destruct (connectionCounts lb !! target) as [[n|]|] eqn:Hc.
  - destruct (Z.ltb_spec 0 n); [|by left].
    right. exists n. split; [done|]. split; [done|].
    by rewrite write_own by (by rewrite Hc).
  - by left.
  - left. by destruct (objectPrototype target).
Qed.

Lemma releaseConnection_well_formed target lb :
  well_formed lb → well_formed (releaseConnection target lb).
Proof.
  intros Hwf.
  destruct (releaseConnection_cases target lb) as [->|(n & Hn & Hpos & ->)]; [done|].
  apply insert_existing_well_formed; [done| |lia].
  destruct Hwf as (_ & _ & Hdom & _).
  apply (elem_of_list_to_set (C := gset string)).
  rewrite <- Hdom. apply elem_of_dom. unfold has_count in Hn. eauto.
Qed.

Lemma run_well_formed ops :
  ∀ lb,
    AddTarget "__proto__" ∉ ops →
    well_formed lb → well_formed (run ops lb).
Proof.
  induction ops as [|o ops IH]; intros lb Hproto Hwf; [done|].
  apply not_elem_of_cons in Hproto as [Ho Hproto].
  change (run (o :: ops) lb) with (run ops (step lb o)).
  apply IH; [done|]. destruct o as [t|t|u|t]; simpl.
  - apply addTarget_well_formed; [congruence | done].
  - by apply removeTarget_well_formed.
  - by apply getNextTarget_well_formed.
  - by apply releaseConnection_well_formed.
Qed.

(** The cursor needs nothing from the counters: every call keeps it in
    the list, or at 0 on an empty list. *)
Lemma step_cursor_kept lb (o : op) :
  cursor_kept lb → cursor_kept (step lb o).
Proof.
  unfold cursor_kept, cursor_valid. intros Hcur.
  destruct o as [t|t|u|t]; simpl.
  - unfold addTarget. case_bool_decide; [done|]. simpl.
    left. rewrite length_app. simpl. destruct Hcur as [?|[_ ->]]; lia.
  - unfold removeTarget. destruct (indexOf t (targets lb)) as [i|]; [|done].
    simpl.
    destruct (Nat.leb_spec (length (delete i (targets lb))) (currentIndex lb)); simpl.
    + destruct (delete i (targets lb)); [by right | left; simpl; lia].
    + by left.
  - unfold getNextTarget.
    destruct (Nat.eqb_spec (length (targets lb)) 0) as [?|Hne]; [done|].
    destruct (Nat.eqb_spec (length (targets lb)) 1) as [?|_]; [done|].
    destruct (String.eqb (strategy lb) "random"); [done|].
    destruct (String.eqb (strategy lb) "least-connections"); [done|].
    simpl. left. by apply Nat.mod_upper_bound.
  - by destruct (releaseConnection_cases t lb) as [->|(n & _ & _ & ->)].
Qed.

Lemma run_cursor_kept ops :
  ∀ lb, cursor_kept lb → cursor_kept (run ops lb).
Proof.
  induction ops as [|o ops IH]; intros lb Hcur; [done|].
  change (run (o :: ops) lb) with (run ops (step lb o)).
  by apply IH, step_cursor_kept.
Qed.

Lemma constructor_cursor_kept ts strat : cursor_kept (constructor ts strat).
Proof.
  unfold cursor_kept, cursor_valid. simpl.
  destruct ts; [by right | left; simpl; lia].
Qed.

(** What [removeTarget] does to the cursor when it removes something. *)
Lemma removeTarget_cursor target lb :
  target ∈ targets lb →
  length (targets (removeTarget target lb)) = length (targets lb) - 1
  ∧ currentIndex (removeTarget target lb)
    = if decide (length (targets lb) - 1 ≤ currentIndex lb) then 0
      else currentIndex lb.
Proof.
  intros Hin. unfold removeTarget.
  destruct (indexOf_is_Some target (targets lb) Hin) as [i Hidx].
  rewrite Hidx. apply indexOf_Some in Hidx.
  assert (length (delete i (targets lb)) = length (targets lb) - 1) as Hlen.
  { apply length_delete. eauto. }
  cbn [targets set_targets set_connectionCounts currentIndex].
  rewrite Hlen.
  destruct (Nat.leb_spec (length (targets lb) - 1) (currentIndex lb));
    case_decide; try lia; by split.
Qed.

(** C8, as the specification words it, fails on the code, in three ways.
    Removing the only target leaves an empty list with the cursor at 0,
    which indexes nothing.  When the list given to the constructor repeats
    a target, removing it once drops its counter while an occurrence stays
    in the list.  And a target named [__proto__] never gets a counter: the
    counter object is a plain object, which ignores a number assigned
    under that key. *)
Lemma balancer_invariant_as_worded_fails :
  ¬ cursor_valid (run [RemoveTarget "a"] (constructor ["a"] "round-robin"))
  ∧ ¬ counters_match
        (run [RemoveTarget "a"] (constructor ["a"; "a"; "b"] "round-robin"))
  ∧ ¬ counters_match (run [] (constructor ["__proto__"; "b"] "round-robin")).
Proof.
  split; [|split].
  - unfold cursor_valid. vm_compute. lia.
  - unfold counters_match. intros Heq.
    assert ("a" ∈ dom (connectionCounts
              (run [RemoveTarget "a"] (constructor ["a"; "a"; "b"] "round-robin"))))
      as [v Hv]%elem_of_dom.
    { rewrite Heq. apply elem_of_list_to_set. vm_compute. left. }
    vm_compute in Hv. discriminate.
  - unfold counters_match. intros Heq.
    assert ("__proto__" ∈ dom (connectionCounts
              (run [] (constructor ["__proto__"; "b"] "round-robin"))))
      as [v Hv]%elem_of_dom.
    { rewrite Heq. apply elem_of_list_to_set. vm_compute. left. }
    vm_compute in Hv. discriminate.
Qed.

(** C8, amended — a balancer built from any list, after any sequence of
    [addTarget], [removeTarget], [getNextTarget] and [releaseConnection]
    calls.  If the list is not empty the cursor indexes it, and if it is
    empty the cursor is 0.  A [removeTarget] that removes a target shortens
    the list by one and sets the cursor to 0 if the new length is at or
    below the cursor, leaving it alone otherwise.  If moreover the list
    given to the constructor is duplicate-free and the name [__proto__] is
    neither in it nor added later, the keys of the counter object are
    exactly the current targets, one counter for each. *)
Theorem balancer_invariant ts strat ops :
  let lb := run ops (constructor ts strat) in
  (targets lb ≠ [] → cursor_valid lb)
  ∧ (targets lb = [] → currentIndex lb = 0)
  ∧ (∀ target, target ∈ targets lb →
       length (targets (removeTarget target lb)) = length (targets lb) - 1
       ∧ currentIndex (removeTarget target lb)
         = if decide (length (targets lb) - 1 ≤ currentIndex lb) then 0
           else currentIndex lb)
  ∧ (NoDup ts → avoids_proto ts ops →
       counters_match lb
       ∧ size (connectionCounts lb) = length (targets lb)).
Proof.
  intros lb.
  pose proof (run_cursor_kept ops _ (constructor_cursor_kept ts strat)) as Hcur.
  fold lb in Hcur.
  split; [|split; [|split]].
  - intros Hne. destruct Hcur as [?|[? _]]; done.
  - intros Hnil. destruct Hcur as [Hv|[_ ?]]; [|done].
    unfold cursor_valid in Hv. rewrite Hnil in Hv. simpl in Hv. lia.
  - intros target. apply removeTarget_cursor.
  - intros Hnd [Hts Hops].
    destruct (run_well_formed ops (constructor ts strat)) as (Hnd' & _ & Hdom & _).
    { done. }
    { by apply constructor_well_formed. }
    fold lb in Hnd', Hdom. split; [done|].
    rewrite <- size_dom, Hdom. by apply size_list_to_set.
Qed.

(** On a balancer built from a duplicate-free list without [__proto__],
    every target has a counter whatever calls were made, so the
    least-connections selection always finds the first least counter. *)
Lemma least_connections_reachable ts ops u :
  NoDup ts →
  avoids_proto ts ops →
  let lb := run ops (constructor ts "least-connections") in
  2 ≤ length (targets lb) →
  ∃ (target : string) (n : Z),
    getNextTarget u lb
    = (Returns (Some target),
       set_connectionCounts (<[target := Num (n + 1)]> (connectionCounts lb)) lb)
    ∧ first_least (connectionCounts lb) (targets lb) target
    ∧ has_count (connectionCounts lb) target n.
Proof.
  intros Hnd [Hts Hops] lb Hlen.
  assert (well_formed lb) as Hwf
    by (by apply run_well_formed; [|apply constructor_well_formed]).
  assert (strategy lb = "least-connections") as Hs.
  { subst lb. clear. induction ops as [|o ops IH] using rev_ind; [done|].
    unfold run in *. rewrite foldl_app. simpl.
    destruct o as [t|t|u|t]; simpl; try done.
    - unfold addTarget. by case_bool_decide.
    - unfold removeTarget. destruct (indexOf _ _); [|done]. simpl.
      by destruct (_ <=? _).
    - unfold getNextTarget.
      repeat (case_match; simpl; try done);
        unfold getRandomTarget, getLeastConnectionsTarget, getRoundRobinTarget in *;
        simplify_eq; done.
    - by destruct (releaseConnection_cases t (foldl step
           (constructor ts "least-connections") ops)) as [->|(n & _ & _ & ->)]. }
  assert (targets lb ≠ []) as Hne
    by (intros E; rewrite E in Hlen; simpl in Hlen; lia).
  destruct (getLeastConnectionsTarget_first_least lb Hne
              (well_formed_has_count lb Hwf))
    as (target & n & Hcall & Hn & Hfirst).
  exists target, n.
  rewrite getNextTarget_least_dispatch, Hcall by done. by repeat split.
Qed.

(** Three distinct targets; the cursor is moved to the last one, which is
    then removed, and a new target is added. *)
Lemma balancer_invariant_witness :
  let lb := run [GetNextTarget (mkSample 0 1); GetNextTarget (mkSample 0 1);
                 RemoveTarget "c"; AddTarget "d"]
                (constructor ["a"; "b"; "c"] "round-robin") in
  cursor_valid lb ∧ counters_match lb ∧ size (connectionCounts lb) = 3.
Proof.
  intros lb.
  destruct (balancer_invariant ["a"; "b"; "c"] "round-robin"
              [GetNextTarget (mkSample 0 1); GetNextTarget (mkSample 0 1);
               RemoveTarget "c"; AddTarget "d"])
    as (Hcur & _ & _ & Hcounts).
  destruct Hcounts as [Hdom Hsize].
  - compute_done.
  - split.
    + compute_done.
    + intros Hin. repeat (apply elem_of_cons in Hin as [Hin|Hin]; [discriminate|]).
      by apply elem_of_nil in Hin.
  - split; [by apply Hcur | split; [exact Hdom | exact Hsize]].
Defined.

End BalancerProperties.

(** ** Service registry, request router and health view *)

Section ProxyProperties.

Import ServiceProxy.

Implicit Types (sp : ServiceProxy.t) (h : heap) (service : ServiceEntry).

(** *** Registration *)

Lemma registerService_rejects h serviceName r opts sp :
  h !! r = None ∨ h !! r = Some [] →
  registerService h serviceName r opts sp
  = (Throws "Targets must be a non-empty array of URLs", sp).
Proof. unfold registerService. by intros [-> | ->]. Qed.

Lemma registerService_accepts h serviceName r opts sp ts :
  h !! r = Some ts → ts ≠ [] →
  registerService h serviceName r opts sp
  = (Returns tt,
     mk (<[serviceName := entryFor sp r ts opts]> (services sp)) (defaultOptions sp)).
Proof.
  intros Hr Hne. unfold registerService. rewrite Hr.
  destruct ts as [|t ts]; [done|]. reflexivity.
Qed.

(** C2, as worded, fails on the code: a list that repeats an address is
    not refused.  The call returns and the registry has a new entry. *)
Lemma registerService_accepts_duplicates :
  let ts := ["http://a:1"; "http://a:1"] in
  let h : heap := {[ 1%positive := ts ]} in
  let opts := mkOptions None None None in
  let sp := ServiceProxy.constructor opts in
  ¬ NoDup ts
  ∧ (registerService h "svc" 1%positive opts sp).1 = Returns tt
  ∧ services sp !! "svc" = None
  ∧ services (registerService h "svc" 1%positive opts sp).2 !! "svc"
    = Some (entryFor sp 1%positive ts opts).
Proof.
  intros ts h opts sp. split.
  - intros Hnd. apply NoDup_cons in Hnd as [Hnin _]. apply Hnin. left.
  - vm_compute. done.
Qed.

(** C2, amended — [registerService] throws exactly when its [targets]
    argument is not an array or is an empty one, and the registry is then
    as it was.  Any non-empty array is accepted, repeated addresses
    included: the call returns and the entry built from the array is
    stored under the name, replacing whatever was there. *)
Theorem registerService_rejects_empty_only h serviceName r opts sp :
  (h !! r = None ∨ h !! r = Some [] →
     ∃ msg, registerService h serviceName r opts sp = (Throws msg, sp))
  ∧ (∀ ts, h !! r = Some ts → ts ≠ [] →
       (registerService h serviceName r opts sp).1 = Returns tt
       ∧ services (registerService h serviceName r opts sp).2 !! serviceName
         = Some (entryFor sp r ts opts)
       ∧ (∀ other, other ≠ serviceName →
            services (registerService h serviceName r opts sp).2 !! other
            = services sp !! other)).
Proof.
  split.
  - intros Hbad. eexists. by apply registerService_rejects.
  - intros ts Hr Hne. rewrite (registerService_accepts _ _ _ _ _ ts) by done.
    simpl. split; [done|]. split; [by rewrite lookup_insert_eq|].
    intros other Hother. by rewrite lookup_insert_ne.
Qed.

(** An empty array is refused and an earlier registration survives; a
    two-element array is accepted. *)
Lemma registerService_rejects_empty_only_witness :
  let h : heap := {[ 1%positive := []; 2%positive := ["http://a:1"; "http://b:1"] ]} in
  let opts := mkOptions None None None in
  let sp := (registerService h "svc" 2%positive opts (ServiceProxy.constructor opts)).2 in
  (∃ msg, registerService h "svc" 1%positive opts sp = (Throws msg, sp))
  ∧ (registerService h "new" 2%positive opts sp).1 = Returns tt.
Proof.
  intros h opts sp.
  destruct (registerService_rejects_empty_only h "svc" 1%positive opts sp) as [Hbad _].
  destruct (registerService_rejects_empty_only h "new" 2%positive opts sp) as [_ Hok].
  split.
  - apply Hbad. right. reflexivity.
  - apply (Hok ["http://a:1"; "http://b:1"]); [reflexivity | discriminate].
Defined.

(** *** Health view *)

Lemma visited_lookup h clock sp name :
  map_imap (λ name service, Some (visit h (clock name) service)) (services sp) !! name
  = visit h (clock name) <$> services sp !! name.
Proof. rewrite map_lookup_imap. by destruct (services sp !! name). Qed.


(** What the report says about one registered service, and what the query
    leaves in the registry for it. *)
Lemma health_entry h clock sp name service :
  services sp !! name = Some service →
  (name ≠ "__proto__" →
     perService (getHealthMiddleware h clock sp).1 !! name
     = Some (visit h (clock name) service).1)
  ∧ services (getHealthMiddleware h clock sp).2 !! name
    = Some (visit h (clock name) service).2.
Proof.
  intros Hsome. unfold getHealthMiddleware. simpl. split.
  - intros Hname.
    rewrite lookup_delete_ne by done.
    by rewrite lookup_fmap, visited_lookup, Hsome.
  - by rewrite lookup_fmap, visited_lookup, Hsome.
Qed.




Lemma visit_targets h now service :
  reportedTargets (visit h now service).1 = h !! targets service
  ∧ targets (visit h now service).2 = targets service.
Proof. unfold visit. by destruct (CircuitBreaker.isOpen _ _). Qed.





(** *** The reported target list *)

Lemma router_targets now u service :
  targets (router now u service).2 = targets service.
Proof.
  unfold router. destruct (CircuitBreaker.isOpen _ _) as [[] cb]; [done|].
  by destruct (LoadBalancer.getNextTarget _ _).
Qed.

Lemma onError_targets now target service :
  targets (onError now target service) = targets service.
Proof. unfold onError. by destruct (truthy target). Qed.

Lemma on_service_bound name' f serviceName r sp :
  (∀ service, targets (f service) = targets service) →
  bound_to serviceName r sp →
  bound_to serviceName r (on_service name' f sp).
Proof.
  intros Hf (service & Hs & Ht). unfold bound_to. simpl.
  destruct (decide (name' = serviceName)) as [->|Hne].
  - exists (f service). by rewrite lookup_alter_eq, Hs, Hf.
  - exists service. by rewrite lookup_alter_ne.
Qed.

(** No event short of registering the name again makes the entry hold
    another array. *)
Lemma react_bound serviceName r w e :
  keeps_name serviceName e →
  bound_to serviceName r w.2 →
  bound_to serviceName r (react w e).2.
Proof.
  destruct w as [h sp]. intros Hkeep Hreg.
  destruct e as [name r' opts | name now u | name now target | name now code
                | clock | name o | r' contents]; simpl in *.
  - destruct Hreg as (service & Hs & Ht).
    exists service. split; [|done].
    unfold registerService.
    destruct (h !! r') as [[|t' ts']|]; simpl; [done| |done].
    by rewrite lookup_insert_ne.
  - apply on_service_bound; [|done]. intros. apply router_targets.
  - apply on_service_bound; [|done]. intros. apply onError_targets.
  - by apply on_service_bound.
  - destruct Hreg as (service & Hs & Ht).
    exists (visit h (clock serviceName) service).2. split.
    + by apply health_entry.
    + rewrite <- Ht. apply visit_targets.
  - by apply on_service_bound.
  - done.
Qed.

(** Only the caller writes to the caller's arrays. *)
Lemma react_heap r w e :
  keeps_array r e → (react w e).1 !! r = w.1 !! r.
Proof.
  destruct w as [h sp]. intros Hkeep.
  destruct e; simpl in *; try done.
  by rewrite lookup_insert_ne.
Qed.

Lemma reacts_bound serviceName r events :
  ∀ w,
    Forall (keeps_name serviceName) events →
    bound_to serviceName r w.2 →
    bound_to serviceName r (reacts events w).2.
Proof.
  induction events as [|e events IH]; intros w Hall Hreg; [done|].
  apply Forall_cons in Hall as [He Hall].
  change (reacts (e :: events) w) with (reacts events (react w e)).
  apply IH; [done|]. by apply react_bound.
Qed.

Lemma reacts_heap r events :
  ∀ w,
    Forall (keeps_array r) events →
    (reacts events w).1 !! r = w.1 !! r.
Proof.
  induction events as [|e events IH]; intros w Hall; [done|].
  apply Forall_cons in Hall as [He Hall].
  change (reacts (e :: events) w) with (reacts events (react w e)).
  rewrite IH by done. by apply react_heap.
Qed.

(** C10 — a service registered, under a name other than [__proto__], on
    an array holding [T].  Whatever happens afterwards short of registering
    the name again (requests routed and completed, health queries, other
    registrations, [addTarget], [removeTarget], [getNextTarget] and
    [releaseConnection] on any balancer, the caller writing to any array),
    the health handler reports for the service the present content of that
    same array; when the caller has not written to it, that is [T].  The
    balancer works on its own copy and has no part in the report. *)
Theorem health_targets_fixed h sp serviceName r opts T events clock :
  h !! r = Some T →
  T ≠ [] →
  serviceName ≠ "__proto__" →
  Forall (keeps_name serviceName) events →
  let w := reacts events (h, (registerService h serviceName r opts sp).2) in
  ∃ report,
    perService (getHealthMiddleware w.1 clock w.2).1 !! serviceName = Some report
    ∧ reportedTargets report = w.1 !! r
    ∧ (Forall (keeps_array r) events → reportedTargets report = Some T).
Proof.
  intros Hr Hne Hname Hall w.
  assert (bound_to serviceName r w.2) as (service & Hs & Ht).
  { apply reacts_bound; [done|]. cbn [fst snd].
    rewrite (registerService_accepts _ _ _ _ _ T) by done.
    exists (entryFor sp r T opts). split; [|done].
    cbn [fst snd services]. apply lookup_insert_eq. }
  destruct (health_entry w.1 clock w.2 serviceName service Hs) as [Hrep _].
  eexists. split; [exact (Hrep Hname)|].
  destruct (visit_targets w.1 (clock serviceName) service) as [-> _].
  rewrite Ht. split; [done|].
  intros Hquiet. unfold w. by rewrite reacts_heap.
Qed.

(** A service registered on [a, b]; [c] is added to its balancer and [a]
    removed.  Requests now go to [b, c], the health report still lists
    [a, b]. *)
Lemma health_targets_fixed_witness :
  let h : heap := {[ 1%positive := ["http://a:1"; "http://b:1"] ]} in
  let opts := mkOptions None None None in
  let events := [Balancer "svc" (LoadBalancer.AddTarget "http://c:1");
                 Balancer "svc" (LoadBalancer.RemoveTarget "http://a:1")] in
  let w := reacts events
             (h, (registerService h "svc" 1%positive opts
                    (ServiceProxy.constructor opts)).2) in
  (LoadBalancer.getTargets ∘ loadBalancer) <$> services w.2 !! "svc"
  = Some ["http://b:1"; "http://c:1"]
  ∧ ∃ report,
      perService (getHealthMiddleware w.1 (λ _, 0%Z) w.2).1 !! "svc" = Some report
      ∧ reportedTargets report = Some ["http://a:1"; "http://b:1"].
Proof.
  intros h opts events w. split; [vm_compute; reflexivity|].
  destruct (health_targets_fixed h (ServiceProxy.constructor opts) "svc" 1%positive
              opts ["http://a:1"; "http://b:1"] events (λ _, 0%Z))
    as (report & Hrep & _ & Hfixed).
  - reflexivity.
  - discriminate.
  - discriminate.
  - repeat constructor.
  - exists report. split; [exact Hrep|]. apply Hfixed.
    repeat constructor.
Defined.

(** The entry's [targets] is the caller's array itself: when the caller
    writes to it after registering, the report follows, and the balancer,
    which copied the array when it was built, does not.  And a service
    registered under the name [__proto__] is not reported at all. *)
Lemma health_targets_alias_caller_array :
  let h : heap := {[ 1%positive := ["http://a:1"; "http://b:1"] ]} in
  let opts := mkOptions None None None in
  let registered name :=
    (h, (registerService h name 1%positive opts (ServiceProxy.constructor opts)).2) in
  let w := reacts [ArrayWrite 1%positive ["http://z:1"]] (registered "svc") in
  let w' := registered "__proto__" in
  (reportedTargets <$> perService (getHealthMiddleware w.1 (λ _, 0%Z) w.2).1 !! "svc"
   = Some (Some ["http://z:1"])
   ∧ (LoadBalancer.getTargets ∘ loadBalancer) <$> services w.2 !! "svc"
     = Some ["http://a:1"; "http://b:1"])
  ∧ ((LoadBalancer.getTargets ∘ loadBalancer) <$> services w'.2 !! "__proto__"
     = Some ["http://a:1"; "http://b:1"]
     ∧ perService (getHealthMiddleware w'.1 (λ _, 0%Z) w'.2).1 !! "__proto__" = None).
Proof. vm_compute. done. Qed.

(** *** Connection bookkeeping of the request handler *)

Lemma onError_loadBalancer now target service :
  loadBalancer (onError now target service) = loadBalancer service.
Proof. unfold onError. by destruct (truthy target). Qed.

Lemma onProxyRes_loadBalancer now code service :
  loadBalancer (onProxyRes now code service).1 = loadBalancer service.
Proof. done. Qed.

(** C1 on the code — a request routed under least-connections (two or
    more targets, each with a counter, breaker not open).  Whether the
    forward is answered or fails, the handler leaves the counter of the
    selected target one above its value before the selection: neither hook
    calls [releaseConnection].  One such call afterwards would have put
    the counters back as they were. *)
Theorem handler_keeps_connection_reserved now1 now2 u c service :
  let lb := loadBalancer service in
  LoadBalancer.strategy lb = "least-connections" →
  2 ≤ length (LoadBalancer.targets lb) →
  (∀ t, t ∈ LoadBalancer.targets lb →
     ∃ n, LoadBalancer.has_count (LoadBalancer.connectionCounts lb) t n) →
  (CircuitBreaker.isOpen now1 (circuitBreaker service)).1 = false →
  let lb' := loadBalancer (handle now1 now2 u c service).2 in
  ∃ target n,
    (handle now1 now2 u c service).1 = Returns (Some target)
    ∧ LoadBalancer.has_count (LoadBalancer.connectionCounts lb) target n
    ∧ LoadBalancer.has_count (LoadBalancer.connectionCounts lb') target (n + 1)
    ∧ LoadBalancer.connectionCounts lb'
      = <[target := LoadBalancer.Num (n + 1)]> (LoadBalancer.connectionCounts lb)
    ∧ ((0 ≤ n)%Z →
       LoadBalancer.connectionCounts (LoadBalancer.releaseConnection target lb')
       = LoadBalancer.connectionCounts lb).
Proof.
  intros lb Hs Hlen Hnum Hclosed lb'.
  assert (LoadBalancer.targets lb ≠ []) as Hne
    by (intros E; rewrite E in Hlen; simpl in Hlen; lia).
  destruct (getLeastConnectionsTarget_first_least lb Hne Hnum)
    as (target & n & Hsel & Hn & _).
  pose proof (getNextTarget_least_dispatch u lb Hs Hlen) as Hcall.
  rewrite Hsel in Hcall. simpl in Hcall.
  exists target, n.
  assert ((handle now1 now2 u c service).1 = Returns (Some target)
          ∧ lb' = LoadBalancer.set_connectionCounts
                    (<[target := LoadBalancer.Num (n + 1)]>
                       (LoadBalancer.connectionCounts lb)) lb) as [Hret Hlb'].
  { subst lb'. unfold handle, router.
    destruct (CircuitBreaker.isOpen now1 (circuitBreaker service)) as [isopen cb].
    simpl in Hclosed. subst isopen. simpl. fold lb. rewrite Hcall.
    destruct c; simpl; [done|].
    by rewrite onError_loadBalancer. }
  rewrite Hlb'. simpl.
  split; [done|]. split; [done|].
  split; [apply lookup_insert_eq|]. split; [done|].
  intros Hpos. unfold LoadBalancer.releaseConnection. simpl.
  rewrite (read_own _ target (LoadBalancer.Num (n + 1)))
    by apply lookup_insert_eq.
  destruct (Z.ltb_spec 0 (n + 1)); [|lia]. simpl.
  rewrite write_own by (rewrite lookup_insert_eq; eauto).
  rewrite insert_insert_eq. replace (n + 1 - 1)%Z with n by lia.
  by apply insert_id.
Qed.

(** [registerService('svc', [a, b], { loadBalancingStrategy:
    'least-connections' })], then one request answered with status 200:
    the counter of [a] was 0 and stays at 1. *)
Lemma handler_keeps_connection_reserved_witness :
  let h : heap := {[ 1%positive := ["http://a:1"; "http://b:1"] ]} in
  let opts := mkOptions (Some "least-connections") None None in
  let service := entryFor (ServiceProxy.constructor (mkOptions None None None))
                          1%positive ["http://a:1"; "http://b:1"] opts in
  let done := handle 100 150 (LoadBalancer.mkSample 0 1) (Responded 200) service in
  getServiceMiddleware "svc"
    (registerService h "svc" 1%positive opts
       (ServiceProxy.constructor (mkOptions None None None))).2
  = Returns service
  ∧ ∃ target n,
      done.1 = Returns (Some target)
      ∧ LoadBalancer.has_count
          (LoadBalancer.connectionCounts (loadBalancer service)) target n
      ∧ LoadBalancer.has_count
          (LoadBalancer.connectionCounts (loadBalancer done.2)) target (n + 1).
Proof.
  intros h opts service done. split; [vm_compute; reflexivity|].
  destruct (handler_keeps_connection_reserved 100 150 (LoadBalancer.mkSample 0 1)
              (Responded 200) service)
    as (target & n & Hret & Hbefore & Hafter & _).
  - reflexivity.
  - simpl. lia.
  - intros t Ht. exists 0%Z. simpl in Ht.
    apply elem_of_cons in Ht as [->|Ht]; [reflexivity|].
    apply elem_of_cons in Ht as [->|Ht]; [reflexivity|].
    by apply elem_of_nil in Ht.
  - reflexivity.
  - by exists target, n.
Defined.

(** The same request, evaluated: [a] is selected, and afterwards its
    counter reads 1 where it read 0 before. *)
Example least_connections_request_not_released :
  let service := entryFor (ServiceProxy.constructor (mkOptions None None None))
                   1%positive ["http://a:1"; "http://b:1"]
                   (mkOptions (Some "least-connections") None None) in
  let ok := handle 100 150 (LoadBalancer.mkSample 0 1) (Responded 200) service in
  let ko := handle 100 150 (LoadBalancer.mkSample 0 1) Failed service in
  LoadBalancer.connectionCounts (loadBalancer service) !! "http://a:1"
  = Some (LoadBalancer.Num 0)
  ∧ ok.1 = Returns (Some "http://a:1")
  ∧ LoadBalancer.connectionCounts (loadBalancer ok.2) !! "http://a:1"
    = Some (LoadBalancer.Num 1)
  ∧ ko.1 = Returns (Some "http://a:1")
  ∧ LoadBalancer.connectionCounts (loadBalancer ko.2) !! "http://a:1"
    = Some (LoadBalancer.Num 1).
Proof. vm_compute. done. Qed.

End ProxyProperties.

(** * Further properties *)

(** ** Circuit breaker life cycle *)

Section BreakerLifeCycle.

Import CircuitBreaker.
Local Open Scope Z_scope.

Implicit Types (cb : CircuitBreaker.t) (now : Z) (times : list Z).

Lemma step_same_settings cb (o : op) : same_settings (step cb o) cb.
Proof.
  destruct o as [now| |now|]; simpl.
  - unfold recordFailure. repeat (case_match; simpl); by repeat split.
  - unfold recordSuccess. repeat (case_match; simpl); by repeat split.
  - unfold isOpen. repeat (case_match; simpl); by repeat split.
  - by repeat split.
Qed.

Lemma run_same_settings (ops : list op) :
  ∀ cb, same_settings (run ops cb) cb.
Proof.
  induction ops as [|o ops IH]; intros cb; [by repeat split|].
  change (run (o :: ops) cb) with (run ops (step cb o)).
  destruct (IH (step cb o)) as (H1 & H2 & H3 & H4).
  destruct (step_same_settings cb o) as (G1 & G2 & G3 & G4).
  repeat split; congruence.
Qed.

(** [reset()] undoes whatever happened to a breaker: after any calls it is
    again the breaker the constructor built. *)
Theorem reset_restores_constructor (options : Options) (ops : list op) :
  reset (run ops (constructor options)) = constructor options.
Proof.
  destruct (run_same_settings ops (constructor options)) as (H1 & H2 & H3 & H4).
  unfold reset, set_lastFailureTime, set_successCount, set_failureCount, set_state.
  simpl. rewrite H1, H2, H3, H4. reflexivity.
Qed.

(** Every call follows an edge of the state machine: a failure opens a
    CLOSED breaker or leaves it CLOSED and opens any other; a success only
    ever closes a HALF_OPEN breaker; [isOpen()] only ever moves OPEN to
    HALF_OPEN; nothing but [reset()] and a success while HALF_OPEN reaches
    CLOSED from another state. *)
Theorem step_follows_edge cb (o : op) :
  edge (state cb) o (state (step cb o)).
Proof.
  destruct o as [now| |now|]; simpl.
  - unfold recordFailure. simpl.
    destruct (state cb) eqn:Hs; simpl.
    + left. split; [done|]. case_match; simpl; auto.
    + right. split; [done|]. by simpl.
    + right. split; [done|]. by simpl.
  - unfold recordSuccess. simpl.
    destruct (state cb) eqn:Hs; simpl; auto.
    case_match; simpl; auto.
  - unfold isOpen. simpl.
    destruct (state cb) eqn:Hs; simpl; auto.
    case_match; simpl; auto.
  - done.
Qed.

Local Ltac settle_books :=
  split_and!; first [done | lia | by eauto | tauto].

Lemma step_consistent cb (o : op) :
  1 ≤ failureThreshold cb →
  1 ≤ halfOpenSuccessThreshold cb →
  consistent cb → consistent (step cb o).
Proof.
  intros HF HH. unfold consistent.
  destruct cb as [st fc sc lt F rt H rq]. simpl in *.
  destruct o as [now| |now|]; simpl.
  - unfold recordFailure. simpl.
    destruct st; simpl; intros (Hfc & Hst).
    + destruct (Z.leb_spec F (fc + 1)); simpl; settle_books.
    + settle_books.
    + settle_books.
  - unfold recordSuccess. simpl.
    destruct st; simpl; intros (Hfc & Hst).
    + settle_books.
    + settle_books.
    + destruct (Z.leb_spec H (sc + 1)); simpl; settle_books.
  - unfold isOpen. simpl.
    destruct st; simpl; intros (Hfc & Hst); [done| |done].
    destruct (rt <? _); simpl; [|done].
    settle_books.
  - intros _. settle_books.
Qed.

(** A breaker whose two thresholds are at least 1 keeps its books straight
    through any calls.  The failure counter never goes negative.  While
    CLOSED the success counter is 0 and the failure counter is below the
    threshold; while OPEN the success counter is 0 and a failure time is
    on record; while HALF_OPEN the success counter is below its threshold
    and a failure time is on record.  The settings never change. *)
Theorem breaker_stays_consistent (options : Options) (ops : list op) :
  1 ≤ failureThreshold (constructor options) →
  1 ≤ halfOpenSuccessThreshold (constructor options) →
  consistent (run ops (constructor options))
  ∧ same_settings (run ops (constructor options)) (constructor options).
Proof.
  intros HF HH. split; [|apply run_same_settings].
  induction ops as [|o ops IH] using rev_ind.
  - unfold consistent. simpl in *. split; [lia|]. split; [done|lia].
  - unfold run in *. rewrite foldl_app. simpl.
    destruct (run_same_settings ops (constructor options)) as (H1 & _ & H3 & _).
    unfold run in H1, H3.
    apply step_consistent; [lia | lia | done].
Qed.

(** With the default thresholds: a failure, a long wait, a success and
    another failure leave an OPEN breaker with a failure time on record. *)
Lemma breaker_stays_consistent_witness :
  let cb := run [RecordFailure 10; RecordFailure 20; IsOpen 50000;
                 RecordSuccess; RecordFailure 50010]
                (constructor (mkOptions (Some 2) None None None)) in
  consistent cb ∧ state cb = OPEN.
Proof.
  intros cb.
  destruct (breaker_stays_consistent (mkOptions (Some 2) None None None)
              [RecordFailure 10; RecordFailure 20; IsOpen 50000;
               RecordSuccess; RecordFailure 50010]) as [Hc _].
  - simpl. lia.
  - simpl. lia.
  - split; [exact Hc | reflexivity].
Defined.

(** When [isOpen()] answers true it has changed nothing. *)
Lemma isOpen_true_unchanged now cb :
  (isOpen now cb).1 = true → (isOpen now cb).2 = cb.
Proof.
  unfold isOpen. destruct (state cb) eqn:Hs; simpl; [done| |done].
  destruct (resetTimeout cb <? elapsed now cb); simpl; [|done].
  done.
Qed.

(** [isOpen()] leaves a breaker that is not OPEN alone and answers false. *)
Lemma isOpen_not_open now cb :
  state cb ≠ OPEN → isOpen now cb = (false, cb).
Proof.
  intros Hne. unfold isOpen.
  rewrite (bool_decide_eq_false_2 (state cb = OPEN)) by done.
  by rewrite (bool_decide_eq_false_2 (state cb = OPEN)).
Qed.

(** Asking again at the same clock reading changes nothing more. *)
Lemma isOpen_again now cb :
  isOpen now (isOpen now cb).2 = isOpen now cb.
Proof.
  assert ((isOpen now cb).1 = bool_decide (state (isOpen now cb).2 = OPEN))
    as Hans by reflexivity.
  destruct (isOpen now cb).1 eqn:E.
  - by rewrite (isOpen_true_unchanged now cb E).
  - symmetry in Hans. apply bool_decide_eq_false in Hans.
    rewrite (isOpen_not_open now _ Hans).
    destruct (isOpen now cb) as [ans cb1]. simpl in *. by subst.
Qed.

(** [isOpen()] is a query with one lazy side effect.  It answers true only
    for an OPEN breaker and then changes nothing; it never changes a CLOSED
    or HALF_OPEN breaker; and asking again at the same clock reading gives
    the same answer and changes nothing more. *)
Theorem isOpen_settles now cb :
  ((isOpen now cb).1 = true → state cb = OPEN ∧ (isOpen now cb).2 = cb)
  ∧ (state cb ≠ OPEN → isOpen now cb = (false, cb))
  ∧ isOpen now (isOpen now cb).2 = isOpen now cb.
Proof.
  split; [|split].
  - intros Htrue. split; [|by apply isOpen_true_unchanged].
    destruct (decide (state cb = OPEN)) as [|Hne]; [done|].
    rewrite isOpen_not_open in Htrue by done. done.
  - apply isOpen_not_open.
  - apply isOpen_again.
Qed.

(** An open breaker past its timeout: the first query moves it to HALF_OPEN
    and answers false, the second changes nothing. *)
Lemma isOpen_settles_witness :
  let cb := recordFailures [1000] (constructor (mkOptions (Some 1) None None None)) in
  isOpen 40000 cb = (false, transitionToHalfOpen cb)
  ∧ isOpen 40000 (transitionToHalfOpen cb) = (false, transitionToHalfOpen cb).
Proof.
  intros cb.
  destruct (isOpen_settles 40000 (transitionToHalfOpen cb)) as (_ & Hne & _).
  split; [reflexivity|]. apply Hne. discriminate.
Defined.

(** A failure recorded while OPEN keeps the breaker OPEN and restarts the
    wait: [isOpen()] answers true until [resetTimeout] has passed since that
    failure, however long ago the breaker opened. *)
Theorem failure_while_open_restarts_timeout now later cb :
  state cb = OPEN →
  later - now ≤ resetTimeout cb →
  state (recordFailure now cb) = OPEN
  ∧ isOpen later (recordFailure now cb) = (true, recordFailure now cb).
Proof.
  intros Hs Hle.
  assert (recordFailure now cb
          = set_successCount 0 (set_failureCount (failureCount cb + 1)
              (set_lastFailureTime (Some now) cb))) as ->.
  { unfold recordFailure. simpl. by rewrite Hs. }
  split; [done|].
  unfold isOpen, elapsed. simpl. rewrite Hs. simpl.
  destruct (Z.ltb_spec (resetTimeout cb) (later - now)); [lia|].
  simpl. by rewrite Hs.
Qed.

(** Opened at time 1000 with a 30 s timeout; a late failure arrives at
    25000.  At 40000 the breaker is still open, although 39 s have passed
    since it opened. *)
Lemma failure_while_open_restarts_timeout_witness :
  let cb := recordFailures [1000] (constructor (mkOptions (Some 1) None None None)) in
  (isOpen 40000 cb).1 = false
  ∧ (isOpen 40000 (recordFailure 25000 cb)).1 = true.
Proof.
  intros cb.
  destruct (failure_while_open_restarts_timeout 25000 40000 cb) as [_ Hopen].
  - reflexivity.
  - vm_compute. discriminate.
  - split; [reflexivity | by rewrite Hopen].
Defined.

(** A run of failures short of the threshold changes the failure counter
    and the failure time and nothing else. *)
Lemma recordFailures_below_fields times :
  ∀ cb,
    state cb = CLOSED →
    successCount cb = 0 →
    failureCount cb + Z.of_nat (length times) < failureThreshold cb →
    recordFailures times cb
    = set_lastFailureTime (lastFailureTime (recordFailures times cb))
        (set_failureCount (failureCount cb + Z.of_nat (length times)) cb).
Proof.
  induction times as [|now times IH]; intros cb Hst Hsc Hlt.
  - destruct cb. simpl in *. unfold set_lastFailureTime, set_failureCount. simpl.
    f_equal. lia.
  - simpl in Hlt.
    change (recordFailures (now :: times) cb)
      with (recordFailures times (recordFailure now cb)).
    rewrite recordFailure_closed_below by (done || lia).
    rewrite IH at 1 by (simpl; done || lia).
    destruct cb. simpl in *. subst.
    unfold set_lastFailureTime, set_failureCount, set_successCount. simpl.
    f_equal. lia.
Qed.

(** [recordSuccess()] clears the failure counter before it looks at
    anything. *)
Lemma recordSuccess_clears_first cb :
  recordSuccess cb = recordSuccess (set_failureCount 0 cb).
Proof. by destruct cb. Qed.

(** Successes short of the threshold change the two counters and nothing
    else. *)
Lemma recordSuccesses_below_fields (n : nat) :
  ∀ cb,
    state cb = HALF_OPEN →
    successCount cb + Z.of_nat n < halfOpenSuccessThreshold cb →
    set_failureCount 0 (recordSuccesses n cb)
    = set_successCount (successCount cb + Z.of_nat n) (set_failureCount 0 cb).
Proof.
  induction n as [|n IH]; intros cb Hst Hlt.
  - destruct cb. simpl in *. unfold set_successCount, set_failureCount. simpl.
    f_equal. lia.
  - change (recordSuccesses (S n) cb) with (recordSuccess (recordSuccesses n cb)).
    destruct (recordSuccesses_below n cb) as (H1 & H2 & H3); [done|lia|].
    rewrite recordSuccess_half_open_below by (done || lia).
    rewrite H2.
    transitivity (set_successCount (successCount cb + Z.of_nat n + 1)
                    (set_failureCount 0 (recordSuccesses n cb))).
    { by destruct (recordSuccesses n cb). }
    rewrite IH by (done || lia).
    destruct cb. unfold set_successCount, set_failureCount. simpl.
    f_equal. lia.
Qed.

(** A full cycle leaves no trace but the failure time.  A CLOSED breaker
    with empty counters takes exactly [failureThreshold] failures, is
    queried after the timeout has passed since the last of them, and then
    takes exactly [halfOpenSuccessThreshold] successes: it is the breaker it
    was, with the time of that last failure on record. *)
Theorem full_cycle_returns_to_start cb times final now (successes : nat) :
  state cb = CLOSED →
  failureCount cb = 0 →
  successCount cb = 0 →
  Z.of_nat (length times) + 1 = failureThreshold cb →
  resetTimeout cb < now - final →
  (1 ≤ successes)%nat →
  Z.of_nat successes = halfOpenSuccessThreshold cb →
  recordSuccesses successes (isOpen now (recordFailures (times ++ [final]) cb)).2
  = set_lastFailureTime (Some final) cb.
Proof.
  intros Hst Hfc Hsc HF Hrt Hpos HH.
  rewrite recordFailures_snoc.
  rewrite (recordFailures_below_fields times cb) by (done || lia).
  set (stamp := lastFailureTime (recordFailures times cb)). clearbody stamp.
  destruct cb as [st fc sc lt F rt H rq]. simpl in *. subst st fc sc.
  unfold recordFailure. simpl.
  destruct (Z.leb_spec F (0 + Z.of_nat (length times) + 1)); [|lia]. simpl.
  unfold isOpen, elapsed. simpl.
  destruct (Z.ltb_spec rt (now - final)); [|lia]. simpl.
  destruct successes as [|n]; [lia|].
  change (recordSuccesses (S n) ?c) with (recordSuccess (recordSuccesses n c)).
  rewrite recordSuccess_clears_first.
  rewrite recordSuccesses_below_fields by (simpl; done || lia).
  rewrite recordSuccess_half_open_reach by (simpl; done || lia).
  reflexivity.
Qed.

(** The default breaker of a service registered with a threshold of two:
    failures at 10 and 20, a query at 40000, three successes. *)
Lemma full_cycle_returns_to_start_witness :
  let cb := constructor (mkOptions (Some 2) None None None) in
  recordSuccesses 3 (isOpen 40000 (recordFailures [10; 20] cb)).2
  = set_lastFailureTime (Some 20) cb.
Proof.
  intros cb.
  apply (full_cycle_returns_to_start cb [10] 20 40000 3%nat);
    first [reflexivity | lia].
Defined.

End BreakerLifeCycle.

(** ** Load balancer operations *)

Section BalancerOperations.

Import LoadBalancer.

Implicit Types (lb : LoadBalancer.t) (ts : list string) (u : sample).

(** The scan never leaves the list it scans. *)
Lemma least_elem_of (counts : gmap string jsnum) ts :
  ∀ first, least counts ts first = first ∨ least counts ts first ∈ ts.
Proof.
  unfold least. induction ts as [|x ts IH] using rev_ind; intros first; [by left|].
  rewrite foldl_app. simpl.
  destruct (js_lt _ _).
  - right. apply elem_of_app. right. by left.
  - destruct (IH first) as [->|Hin]; [by left|].
    right. apply elem_of_app. by left.
Qed.

Lemma random_index_in_range u (n : nat) :
  in_unit_interval u → 0 < n → (num u * n) / den u < n.
Proof.
  unfold in_unit_interval. intros Hu Hn.
  apply Nat.Div0.div_lt_upper_bound. nia.
Qed.

(** With the cursor inside the list and [Math.random()] below 1, the call
    returns a member of the list. *)
Lemma getNextTarget_member u lb :
  cursor_valid lb →
  in_unit_interval u →
  ∃ target, (getNextTarget u lb).1 = Returns (Some target) ∧ target ∈ targets lb.
Proof.
  unfold cursor_valid, getNextTarget. intros Hc Hu.
  destruct (targets lb) as [|first rest] eqn:Hts; [simpl in Hc; lia|].
  destruct rest as [|second rest].
  { exists first. split; [done | by left]. }
  cbn [length Nat.eqb].
  destruct (String.eqb (strategy lb) "random").
  { simpl. rewrite Hts.
    destruct (lookup_lt_is_Some_2 (first :: second :: rest)
                (num u * length (first :: second :: rest) / den u)) as [x Hx].
    { apply random_index_in_range; [done | simpl; lia]. }
    exists x. split; [by rewrite Hx | by eapply list_elem_of_lookup_2]. }
  destruct (String.eqb (strategy lb) "least-connections").
  { unfold getLeastConnectionsTarget. rewrite Hts.
    cbn [fst snd targets set_connectionCounts].
    eexists. split; [done|].
    destruct (least_elem_of (connectionCounts lb) (first :: second :: rest) first)
      as [->|Hin]; [by left | done]. }
  simpl. rewrite Hts.
  destruct (lookup_lt_is_Some_2 (first :: second :: rest) (currentIndex lb) Hc)
    as [x Hx].
  exists x. split; [by rewrite Hx | by eapply list_elem_of_lookup_2].
Qed.

(** No strategy changes the list. *)
Lemma getNextTarget_targets u lb :
  targets (getNextTarget u lb).2 = targets lb.
Proof.
  unfold getNextTarget.
  destruct (_ =? 0); [done|]. destruct (_ =? 1); [done|].
  destruct (String.eqb _ "random"); [done|].
  by destruct (String.eqb _ "least-connections").
Qed.

(** [getNextTarget()] throws exactly when there is no target, and then
    changes nothing.  Otherwise, with the cursor inside the list and
    [Math.random()] below 1, it returns one of the current targets under
    every strategy, never [undefined]; and it never changes the list. *)
Theorem getNextTarget_returns_a_target u lb :
  (targets lb = [] →
     getNextTarget u lb = (Throws "No targets available for load balancing", lb))
  ∧ (targets lb ≠ [] → ∃ r, (getNextTarget u lb).1 = Returns r)
  ∧ targets (getNextTarget u lb).2 = targets lb
  ∧ (cursor_valid lb → in_unit_interval u →
       ∃ target, (getNextTarget u lb).1 = Returns (Some target)
                 ∧ target ∈ targets lb).
Proof.
  split; [|split; [|split]].
  - intros Hnil. unfold getNextTarget. by rewrite Hnil.
  - intros Hne. unfold getNextTarget.
    destruct (targets lb) as [|first rest]; [done|].
    destruct rest as [|second rest]; [simpl; eauto|].
    cbn [length Nat.eqb].
    destruct (String.eqb _ "random"); [simpl; eauto|].
    destruct (String.eqb _ "least-connections"); simpl; eauto.
  - apply getNextTarget_targets.
  - apply getNextTarget_member.
Qed.

(** Random selection among three targets with [Math.random() = 2/3]: the
    third is returned. *)
Lemma getNextTarget_returns_a_target_witness :
  let lb := constructor ["a"; "b"; "c"] "random" in
  ∃ target, (getNextTarget (mkSample 2 3) lb).1 = Returns (Some target)
            ∧ target ∈ targets lb.
Proof.
  intros lb.
  destruct (getNextTarget_returns_a_target (mkSample 2 3) lb) as (_ & _ & _ & H).
  apply H.
  - unfold cursor_valid. simpl. lia.
  - unfold in_unit_interval. simpl. lia.
Defined.

(** Selection and release cancel out.  Under least-connections, with two or
    more targets whose counters are numbers from 0 up, releasing the target
    that [getNextTarget()] returned gives back the balancer as it was before
    the call. *)
Theorem release_undoes_selection u lb :
  strategy lb = "least-connections" →
  2 ≤ length (targets lb) →
  (∀ t, t ∈ targets lb → ∃ n, (0 ≤ n)%Z ∧ has_count (connectionCounts lb) t n) →
  ∃ target,
    (getNextTarget u lb).1 = Returns (Some target)
    ∧ target ∈ targets lb
    ∧ releaseConnection target (getNextTarget u lb).2 = lb.
Proof.
  intros Hs Hlen Hnum.
  assert (targets lb ≠ []) as Hne
    by (intros E; rewrite E in Hlen; simpl in Hlen; lia).
  destruct (getLeastConnectionsTarget_first_least lb Hne)
    as (target & n & Hsel & Hn & (i & _ & Hi & _)).
  { intros t Ht. destruct (Hnum t Ht) as (m & _ & Hm). by exists m. }
  assert (target ∈ targets lb) as Hin by (by eapply list_elem_of_lookup_2).
  destruct (Hnum target Hin) as (n' & Hpos & Hn').
  assert (n' = n) as -> by (unfold has_count in *; congruence).
  exists target.
  rewrite getNextTarget_least_dispatch, Hsel by done.
  split; [done|]. split; [done|].
  unfold releaseConnection. simpl.
  rewrite (read_own _ target (Num (n + 1))) by apply lookup_insert_eq.
  destruct (Z.ltb_spec 0 (n + 1)); [|lia]. simpl.
  rewrite write_own by (rewrite lookup_insert_eq; eauto).
  rewrite insert_insert_eq. replace (n + 1 - 1)%Z with n by lia.
  rewrite insert_id by done. by destruct lb.
Qed.

Lemma release_undoes_selection_witness :
  let lb := constructor ["a"; "b"] "least-connections" in
  ∃ target,
    (getNextTarget (mkSample 0 1) lb).1 = Returns (Some target)
    ∧ target ∈ targets lb
    ∧ releaseConnection target (getNextTarget (mkSample 0 1) lb).2 = lb.
Proof.
  intros lb. apply release_undoes_selection.
  - reflexivity.
  - simpl. lia.
  - intros t Ht. exists 0%Z. split; [lia|]. simpl in Ht.
    apply elem_of_cons in Ht as [->|Ht]; [reflexivity|].
    apply elem_of_cons in Ht as [->|Ht]; [reflexivity|].
    by apply elem_of_nil in Ht.
Defined.

Lemma constructor_tended ts strat :
  NoDup ts → tended (constructor ts strat).
Proof.
  intros Hnd. split; [done|]. split.
  - intros target Hin Hproto. exists 0%Z. unfold has_count. simpl.
    by rewrite constructor_counts, decide_True.
  - intros k v. simpl. rewrite constructor_counts by done.
    case_decide; [|by rewrite lookup_empty].
    intros [= <-]. by exists 0%Z.
Qed.

Lemma tended_insert (k : string) (n : Z) lb :
  tended lb →
  (0 ≤ n)%Z →
  tended (set_connectionCounts (<[k := Num n]> (connectionCounts lb)) lb).
Proof.
  intros (Hnd & Hhas & Hnum) Hn. split; [done|]. split.
  - intros target Hin Hproto. unfold has_count. simpl.
    destruct (decide (k = target)) as [->|Hne].
    + exists n. apply lookup_insert_eq.
    + rewrite lookup_insert_ne by done. by apply Hhas.
  - intros j v. simpl. rewrite lookup_insert.
    case_decide; [intros [= <-]; by exists n | apply Hnum].
Qed.

Lemma step_tended lb (o : op) : tended lb → tended (step lb o).
Proof.
  intros Htended. pose proof Htended as (Hnd & Hhas & Hnum).
  destruct o as [t|t|u|t]; simpl.
  - unfold addTarget. case_bool_decide as Hin; [done|].
    assert (NoDup (targets lb ++ [t])) as Hnd'.
    { apply NoDup_app. split; [done|]. split; [|apply NoDup_singleton].
      intros y Hy ->%list_elem_of_singleton. done. }
    destruct (write_cases (connectionCounts lb) t (Num 0))
      as [->|(-> & Hnone & ->)].
    + destruct (tended_insert t 0 lb Htended) as (_ & Hhas' & Hnum'); [done|].
      split; [done|]. split; [|done].
      intros target [Hold|Heq%list_elem_of_singleton]%elem_of_app Hproto.
      * by apply Hhas'.
      * subst target. exists 0%Z. apply lookup_insert_eq.
    + split; [done|]. split; [|done].
      intros target [Hold|Heq%list_elem_of_singleton]%elem_of_app Hproto; [|done].
      by apply Hhas.
  - unfold removeTarget.
    destruct (indexOf t (targets lb)) as [i|] eqn:Hidx; [|done].
    apply indexOf_Some in Hidx.
    destruct (delete_nodup t (targets lb) i Hnd Hidx) as (Hnd' & Hset & _).
    assert (tended (set_connectionCounts (delete t (connectionCounts lb))
                      (set_targets (delete i (targets lb)) lb))) as Hd.
    { split; [done|]. split.
      - intros target Hin Hproto. simpl in Hin.
        assert (target ∈ (list_to_set (delete i (targets lb)) : gset string)) as Hin'
          by (by apply elem_of_list_to_set).
        rewrite Hset in Hin'.
        apply elem_of_difference in Hin' as [Hold Hne].
        apply elem_of_list_to_set in Hold.
        destruct (Hhas target Hold Hproto) as [n Hn]. exists n.
        unfold has_count. simpl. rewrite lookup_delete_ne; [done|].
        intros ->. apply Hne. by apply elem_of_singleton.
      - intros k v. simpl. rewrite lookup_delete.
        case_decide; [done | apply Hnum]. }
    simpl. destruct (_ <=? _); exact Hd.
  - unfold getNextTarget.
    destruct (Nat.eqb_spec (length (targets lb)) 0) as [?|Hne]; [done|].
    destruct (Nat.eqb_spec (length (targets lb)) 1) as [?|_]; [done|].
    destruct (String.eqb (strategy lb) "random"); [done|].
    destruct (String.eqb (strategy lb) "least-connections"); [|done].
    unfold getLeastConnectionsTarget.
    destruct (targets lb) as [|first rest] eqn:Hts; [done|].
    cbn [fst snd default from_option id].
    set (key := least (connectionCounts lb) (first :: rest) first).
    assert (key ∈ first :: rest) as Hkey.
    { unfold key.
      destruct (least_elem_of (connectionCounts lb) (first :: rest) first)
        as [->|?]; [by left | done]. }
    destruct (connectionCounts lb !! key) as [v|] eqn:Hv.
    + destruct (Hnum _ _ Hv) as (n & -> & Hn).
      rewrite (read_own _ _ _ Hv), write_own by (by rewrite Hv). simpl.
      apply tended_insert; [done | lia].
    + assert (key = "__proto__") as Hproto.
      { destruct (decide (key = "__proto__")) as [|Hne']; [done|].
        destruct (Hhas key Hkey Hne') as [n Hn]. unfold has_count in Hn. congruence. }
      rewrite Hproto in *. rewrite write_proto by done.
      by destruct lb.
  - destruct (releaseConnection_cases t lb) as [->|(n & Hn & Hpos & ->)]; [done|].
    apply tended_insert; [done | lia].
Qed.

(** From a duplicate-free list, whatever calls are made, every counter is a
    number that is at least 0 (never [NaN], never negative:
    [releaseConnection] stops at 0) and the list stays duplicate-free. *)
Theorem counters_stay_numbers ts strat (ops : list op) :
  NoDup ts →
  counters_numeric (run ops (constructor ts strat))
  ∧ NoDup (targets (run ops (constructor ts strat))).
Proof.
  intros Hnd.
  assert (tended (run ops (constructor ts strat))) as (Hnd' & _ & Hnum); [|done].
  induction ops as [|o ops IH] using rev_ind.
  - by apply constructor_tended.
  - unfold run in *. rewrite foldl_app. simpl. by apply step_tended.
Qed.

(** Two releases for one selection: the counter stops at 0. *)
Lemma counters_stay_numbers_witness :
  let lb := run [GetNextTarget (mkSample 0 1); ReleaseConnection "a";
                 ReleaseConnection "a"]
                (constructor ["a"; "b"] "least-connections") in
  counters_numeric lb ∧ connectionCounts lb !! "a" = Some (Num 0).
Proof.
  intros lb.
  destruct (counters_stay_numbers ["a"; "b"] "least-connections"
              [GetNextTarget (mkSample 0 1); ReleaseConnection "a";
               ReleaseConnection "a"]) as [Hnum _].
  - compute_done.
  - split; [exact Hnum | reflexivity].
Defined.

Lemma step_strategy lb (o : op) : strategy (step lb o) = strategy lb.
Proof.
  destruct o as [t|t|u|t]; simpl.
  - unfold addTarget. by case_bool_decide.
  - unfold removeTarget. destruct (indexOf _ _); [|done]. simpl.
    by destruct (_ <=? _).
  - unfold getNextTarget.
    destruct (_ =? 0); [done|]. destruct (_ =? 1); [done|].
    destruct (String.eqb _ "random"); [done|].
    by destruct (String.eqb _ "least-connections").
  - by destruct (releaseConnection_cases t lb) as [->|(n & _ & _ & ->)].
Qed.

Lemma step_counters_zero lb (o : op) :
  strategy lb ≠ "least-connections" →
  counters_zero lb → counters_zero (step lb o).
Proof.
  intros Hs Hz. destruct o as [t|t|u|t]; simpl.
  - unfold addTarget. case_bool_decide; [done|].
    destruct (write_cases (connectionCounts lb) t (Num 0)) as [->|(_ & _ & ->)];
      [|done].
    intros k v. simpl. rewrite lookup_insert.
    case_decide; [by intros [= <-] | apply Hz].
  - unfold removeTarget. destruct (indexOf _ _); [|done].
    assert (counters_zero
              (set_connectionCounts (delete t (connectionCounts lb)) lb)) as Hd.
    { intros k v. simpl. rewrite lookup_delete. case_decide; [done | apply Hz]. }
    simpl. destruct (_ <=? _); exact Hd.
  - unfold getNextTarget.
    destruct (_ =? 0); [done|]. destruct (_ =? 1); [done|].
    destruct (String.eqb _ "random"); [done|].
    apply String.eqb_neq in Hs. by rewrite Hs.
  - destruct (releaseConnection_cases t lb) as [->|(n & Hn & Hpos & _)]; [done|].
    pose proof (Hz _ _ Hn) as Hzero. injection Hzero as ->. lia.
Qed.

(** The counters belong to least-connections alone.  Under any other
    strategy no call ever moves a counter: all of them read 0 for good. *)
Theorem counters_unused_by_other_strategies ts strat (ops : list op) :
  strat ≠ "least-connections" →
  counters_zero (run ops (constructor ts strat)).
Proof.
  intros Hs.
  assert (strategy (run ops (constructor ts strat)) = strat
          ∧ counters_zero (run ops (constructor ts strat))) as [_ H]; [|done].
  induction ops as [|o ops [IHs IHz]] using rev_ind.
  - split; [done|]. intros k v. simpl. rewrite constructor_counts by done.
    case_decide; [by intros [= <-] | by rewrite lookup_empty].
  - unfold run in *. rewrite foldl_app. simpl. split.
    + by rewrite step_strategy.
    + apply step_counters_zero; [by rewrite IHs | done].
Qed.

(** Round-robin traffic with a stray release leaves every counter at 0. *)
Lemma counters_unused_by_other_strategies_witness :
  counters_zero
    (run [GetNextTarget (mkSample 0 1); GetNextTarget (mkSample 0 1);
          ReleaseConnection "a"; AddTarget "c"]
         (constructor ["a"; "b"] "round-robin")).
Proof. apply counters_unused_by_other_strategies. discriminate. Defined.

(** The constructor keeps the list as given, starts the cursor at 0 and
    gives every listed target except [__proto__] a counter of 0, and no
    other counter; a [__proto__] in the list gets none.  Whether or not the
    list repeats a target, a target has one counter.  So for a list without
    [__proto__] the keys of the counter object are the listed targets and
    there are as many counters as distinct targets. *)
Theorem constructor_counts_every_target ts strat :
  let lb := constructor ts strat in
  getTargets lb = ts
  ∧ currentIndex lb = 0
  ∧ counters_zero lb
  ∧ dom (connectionCounts lb) = list_to_set ts ∖ {["__proto__"]}
  ∧ (∀ target, target ∈ ts → target ≠ "__proto__" →
       has_count (connectionCounts lb) target 0)
  ∧ ("__proto__" ∉ ts →
       counters_match lb
       ∧ size (connectionCounts lb) = size (list_to_set ts : gset string)).
Proof.
  intros lb.
  assert (dom (connectionCounts lb) = list_to_set ts ∖ {["__proto__"]}) as Hdom.
  { simpl. apply set_eq. intros k.
    rewrite elem_of_dom, constructor_counts, elem_of_difference,
      elem_of_list_to_set, elem_of_singleton by done.
    case_decide as Hk; [by split; eauto|].
    rewrite lookup_empty. split; [by intros [] | done]. }
  split; [done|]. split; [done|]. split; [|split; [done|split]].
  - intros k v. simpl. rewrite constructor_counts by done.
    case_decide; [by intros [= <-] | by rewrite lookup_empty].
  - intros target Hin Hproto. unfold has_count. simpl.
    by rewrite constructor_counts, decide_True.
  - intros Hproto.
    assert (counters_match lb) as Hmatch.
    { unfold counters_match. rewrite Hdom.
      apply set_eq. intros k. split.
      - by intros [Hin _]%elem_of_difference.
      - intros Hin. apply elem_of_difference. split; [done|].
        intros Hk%elem_of_singleton. subst k.
        apply Hproto. by apply elem_of_list_to_set in Hin. }
    split; [done|]. by rewrite <- size_dom, Hmatch.
Qed.

(** A list that repeats [a]: two counters.  A list with [__proto__]: no
    counter for it. *)
Lemma constructor_counts_every_target_witness :
  size (connectionCounts (constructor ["a"; "b"; "a"] "least-connections")) = 2
  ∧ has_count (connectionCounts (constructor ["__proto__"; "b"] "least-connections"))
      "b" 0
  ∧ connectionCounts (constructor ["__proto__"; "b"] "least-connections")
      !! "__proto__" = None.
Proof.
  destruct (constructor_counts_every_target ["a"; "b"; "a"] "least-connections")
    as (_ & _ & _ & _ & _ & Hplain).
  destruct (constructor_counts_every_target ["__proto__"; "b"] "least-connections")
    as (_ & _ & _ & Hdom & Hcount & _).
  split; [|split].
  - destruct Hplain as [_ Hsize]; [compute_done | exact Hsize].
  - apply Hcount; [compute_done | discriminate].
  - apply not_elem_of_dom. rewrite Hdom.
    intros [_ Hne]%elem_of_difference. apply Hne. by apply elem_of_singleton.
Defined.

(** *** Adding and removing targets *)

Lemma indexOf_snoc (x : string) ts :
  x ∉ ts → indexOf x (ts ++ [x]) = Some (length ts).
Proof.
  induction ts as [|y ts IH]; intros Hnin; simpl.
  - by rewrite String.eqb_refl.
  - apply not_elem_of_cons in Hnin as [Hne Hnin].
    destruct (String.eqb_spec y x) as [?|_]; [congruence|].
    by rewrite IH.
Qed.

Lemma filter_absent (x : string) ts :
  x ∉ ts → filter (λ y, y ≠ x) ts = ts.
Proof.
  induction ts as [|y ts IH]; intros Hnin; [done|].
  apply not_elem_of_cons in Hnin as [Hne Hnin].
  rewrite filter_cons_True by congruence. by rewrite IH.
Qed.

(** Deleting its only occurrence filters a value out of a list. *)
Lemma delete_filter (x : string) ts :
  ∀ i : nat,
    NoDup ts → ts !! i = Some x → delete i ts = filter (λ y, y ≠ x) ts.
Proof.
  induction ts as [|y ts IH]; intros i Hnd Hi; [done|].
  apply NoDup_cons in Hnd as [Hy Hnd].
  destruct i as [|i]; simpl in *.
  - injection Hi as ->. rewrite filter_cons_False by (intros H; by apply H).
    by rewrite filter_absent.
  - assert (y ≠ x) as Hne.
    { intros ->. apply Hy. by eapply list_elem_of_lookup_2. }
    rewrite filter_cons_True by done. f_equal. by apply IH.
Qed.

(** [addTarget] is idempotent.  Afterwards the target is in the list; a
    target already there changes nothing; a new one goes to the end of the
    list, the cursor staying where it was, and gets a counter of 0, except
    that a new target named [__proto__] gets no counter (the counter object
    is left as it was); and adding the same target again changes nothing
    more. *)
Theorem addTarget_idempotent (target : string) lb :
  target ∈ targets (addTarget target lb)
  ∧ addTarget target (addTarget target lb) = addTarget target lb
  ∧ (target ∈ targets lb → addTarget target lb = lb)
  ∧ (target ∉ targets lb →
       targets (addTarget target lb) = targets lb ++ [target]
       ∧ currentIndex (addTarget target lb) = currentIndex lb
       ∧ (target ≠ "__proto__" →
            connectionCounts (addTarget target lb)
            = <[target := Num 0]> (connectionCounts lb))
       ∧ (target = "__proto__" →
            connectionCounts lb !! "__proto__" = None →
            connectionCounts (addTarget target lb) = connectionCounts lb)).
Proof.
  assert (target ∈ targets (addTarget target lb)) as Hin.
  { unfold addTarget. case_bool_decide; [done|]. simpl.
    apply elem_of_app. right. by left. }
  split; [done|]. split; [|split].
  - set (lb1 := addTarget target lb) in *.
    unfold addTarget at 1. by rewrite bool_decide_eq_true_2.
  - intros H. unfold addTarget. by rewrite bool_decide_eq_true_2.
  - intros H. unfold addTarget. rewrite bool_decide_eq_false_2 by done. simpl.
    split; [done|]. split; [done|]. split.
    + intros Hne. by apply write_plain.
    + intros -> Hnone. by apply write_proto.
Qed.

Lemma addTarget_idempotent_witness :
  let lb := constructor ["a"; "b"] "round-robin" in
  addTarget "a" lb = lb
  ∧ targets (addTarget "c" lb) = ["a"; "b"; "c"]
  ∧ connectionCounts (addTarget "__proto__" lb) = connectionCounts lb.
Proof.
  intros lb.
  destruct (addTarget_idempotent "a" lb) as (_ & _ & Hold & _).
  destruct (addTarget_idempotent "c" lb) as (_ & _ & _ & Hnew).
  destruct (addTarget_idempotent "__proto__" lb) as (_ & _ & _ & Hproto).
  split; [|split].
  - apply Hold. compute_done.
  - apply Hnew. compute_done.
  - destruct Hproto as (_ & _ & _ & Hsame); [compute_done|].
    apply Hsame; reflexivity.
Defined.

(** [removeTarget] on a duplicate-free list takes the target out and keeps
    the others in their order; the target's counter goes with it.  Removing
    a target that is not there changes nothing, so removing twice is the
    same as removing once. *)
Theorem removeTarget_filters (target : string) lb :
  NoDup (targets lb) →
  targets (removeTarget target lb) = filter (λ t, t ≠ target) (targets lb)
  ∧ (target ∉ targets (removeTarget target lb))
  ∧ (target ∈ targets lb → connectionCounts (removeTarget target lb) !! target = None)
  ∧ (target ∉ targets lb → removeTarget target lb = lb)
  ∧ removeTarget target (removeTarget target lb) = removeTarget target lb.
Proof.
  intros Hnd.
  assert (target ∉ targets lb → removeTarget target lb = lb) as Habsent.
  { intros Hnin. unfold removeTarget.
    destruct (indexOf target (targets lb)) as [i|] eqn:E; [|done].
    apply indexOf_Some in E. exfalso. apply Hnin.
    by eapply list_elem_of_lookup_2. }
  assert (targets (removeTarget target lb) = filter (λ t, t ≠ target) (targets lb))
    as Hfilter.
  { destruct (decide (target ∈ targets lb)) as [Hin|Hnin].
    - unfold removeTarget.
      destruct (indexOf_is_Some target (targets lb) Hin) as [i Hidx].
      rewrite Hidx. apply indexOf_Some in Hidx.
      rewrite <- (delete_filter target (targets lb) i Hnd Hidx).
      simpl. by destruct (_ <=? _).
    - rewrite Habsent by done. by rewrite filter_absent. }
  assert (target ∉ targets (removeTarget target lb)) as Hgone.
  { rewrite Hfilter. intros [Hne _]%list_elem_of_filter. by apply Hne. }
  split; [done|]. split; [done|]. split; [|split; [done|]].
  - intros Hin. unfold removeTarget.
    destruct (indexOf_is_Some target (targets lb) Hin) as [i Hidx].
    rewrite Hidx. simpl.
    destruct (_ <=? _); simpl; apply lookup_delete_eq.
  - set (lb1 := removeTarget target lb) in *.
    unfold removeTarget at 1.
    destruct (indexOf target (targets lb1)) as [i|] eqn:E; [|done].
    apply indexOf_Some in E. exfalso. apply Hgone.
    by eapply list_elem_of_lookup_2.
Qed.

Lemma removeTarget_filters_witness :
  let lb := constructor ["a"; "b"; "c"] "round-robin" in
  targets (removeTarget "b" lb) = ["a"; "c"]
  ∧ removeTarget "z" lb = lb.
Proof.
  intros lb.
  destruct (removeTarget_filters "b" lb) as (Hf & _); [compute_done|].
  destruct (removeTarget_filters "z" lb) as (_ & _ & _ & Habs & _); [compute_done|].
  split; [exact Hf | apply Habs; compute_done].
Defined.

(** Adding a new target and removing it again gives back the balancer as
    it was: list, cursor and counters. *)
Theorem add_then_remove (target : string) lb :
  well_formed lb →
  target ∉ targets lb →
  removeTarget target (addTarget target lb) = lb.
Proof.
  intros (Hnd & Hcur & Hdom & Hnum) Hnin.
  assert (connectionCounts lb !! target = None) as Hnone.
  { apply not_elem_of_dom. rewrite Hdom.
    by rewrite (elem_of_list_to_set (C := gset string)). }
  unfold addTarget. rewrite bool_decide_eq_false_2 by done.
  unfold removeTarget. simpl. rewrite indexOf_snoc by done.
  rewrite (delete_middle (targets lb) [] target), app_nil_r.
  simpl.
  assert (delete target (write (connectionCounts lb) target (Num 0))
          = connectionCounts lb) as ->.
  { destruct (write_cases (connectionCounts lb) target (Num 0))
      as [->|(_ & _ & ->)]; [by apply delete_insert_id | by apply delete_id]. }
  destruct (Nat.leb_spec (length (targets lb)) (currentIndex lb)) as [Hle|Hgt].
  - destruct Hcur as [Hv|[_ Hz]]; [unfold cursor_valid in Hv; lia|].
    destruct lb. simpl in *. by subst.
  - by destruct lb.
Qed.

Lemma add_then_remove_witness :
  let lb := (getNextTarget (mkSample 0 1) (constructor ["a"; "b"] "round-robin")).2 in
  removeTarget "c" (addTarget "c" lb) = lb.
Proof.
  intros lb. apply add_then_remove.
  - apply getNextTarget_well_formed, constructor_well_formed; compute_done.
  - compute_done.
Defined.

(** *** Least connections with nothing released *)

Lemma constructor_served ts :
  "__proto__" ∉ ts →
  served 0 ts (constructor ts "least-connections").
Proof.
  intros Hproto. split; [done|]. split; [done|].
  intros i target Hi. unfold has_count. simpl.
  assert (target ∈ ts) as Hin by (by eapply list_elem_of_lookup_2).
  rewrite constructor_counts, decide_True; [done | | done].
  split; [done|]. by intros ->.
Qed.

(** The next selection goes to the first target not yet handed out. *)
Lemma getNextTarget_served u (k : nat) ts lb :
  NoDup ts →
  2 ≤ length ts →
  served k ts lb →
  k < length ts →
  ∃ target,
    ts !! k = Some target
    ∧ (getNextTarget u lb).1 = Returns (Some target)
    ∧ served (S k) ts (getNextTarget u lb).2.
Proof.
  intros Hnd Hlen (Hts & Hs & Hcounts) Hk. subst ts.
  destruct (lookup_lt_is_Some_2 (targets lb) k Hk) as [tk Htk].
  assert (targets lb ≠ []) as Hne
    by (intros E; rewrite E in Hlen; simpl in Hlen; lia).
  destruct (getLeastConnectionsTarget_first_least lb Hne)
    as (target & n & Hsel & Hn & (i & n' & Hi & Hn' & Hmin & Hbefore)).
  { intros t [j Hj]%list_elem_of_lookup_1. eexists. by eapply Hcounts. }
  assert (n' = n) as -> by (unfold has_count in *; congruence).
  pose proof (Hcounts i target Hi) as Hni.
  pose proof (Hcounts k tk Htk) as Hnk.
  rewrite decide_False in Hnk by lia.
  assert (i = k) as ->.
  { pose proof (Hmin k tk 0%Z Htk Hnk) as Hle.
    destruct (decide (i < k)) as [Hlt|Hge].
    - unfold has_count in *. rewrite Hn in Hni. injection Hni as ->. lia.
    - destruct (decide (k < i)) as [Hgt|?]; [|lia].
      pose proof (Hbefore k tk 0%Z Hgt Htk Hnk).
      unfold has_count in *. rewrite Hn in Hni. injection Hni as ->. lia. }
  assert (target = tk) as -> by congruence.
  assert (n = 0%Z) as ->.
  { rewrite decide_False in Hni by lia.
    unfold has_count in *. congruence. }
  exists tk. rewrite getNextTarget_least_dispatch, Hsel by done.
  split; [done|]. split; [done|].
  split; [done|]. split; [done|].
  intros j t Hj. unfold has_count. simpl.
  destruct (decide (t = tk)) as [->|Hne'].
  - assert (j = k) as -> by (by eapply NoDup_lookup).
    rewrite lookup_insert_eq, decide_True by lia. done.
  - rewrite lookup_insert_ne by done.
    pose proof (Hcounts j t Hj) as Hcj.
    assert (j ≠ k) by congruence.
    destruct (decide (j < k)); [rewrite decide_True by lia | rewrite decide_False by lia];
      done.
Qed.

Lemma getNextTargets_served (us : list sample) ts :
  NoDup ts →
  2 ≤ length ts →
  ∀ (k : nat) lb,
    served k ts lb →
    k + length us ≤ length ts →
    (getNextTargets us lb).1
    = (λ target, Returns (Some target)) <$> take (length us) (drop k ts)
    ∧ served (k + length us) ts (getNextTargets us lb).2.
Proof.
  intros Hnd Hlen.
  induction us as [|u us IH]; intros k lb Hserved Hk.
  - simpl. by rewrite Nat.add_0_r.
  - simpl in Hk.
    destruct (getNextTarget_served u k ts lb) as (target & Htk & Hret & Hnext);
      [done | done | done | lia |].
    destruct (IH (S k) (getNextTarget u lb).2) as [Hrs Hfinal]; [done | lia |].
    simpl. destruct (getNextTarget u lb) as [r lb1]. simpl in *.
    destruct (getNextTargets us lb1) as [rs lb2]. simpl in *.
    subst r rs. split.
    + rewrite (drop_S ts target k Htk). done.
    + by replace (k + S (length us)) with (S k + length us) by lia.
Qed.

(** With nothing released, least-connections deals the targets out in list
    order.  On a fresh balancer over a duplicate-free list of two or more
    targets, none of them named [__proto__], the first [k] calls ([k] up to
    the number of targets) return the first [k] targets in order;
    afterwards exactly those have a counter of 1 and the rest 0. *)
Theorem least_connections_deals_in_order (us : list sample) ts :
  NoDup ts →
  "__proto__" ∉ ts →
  2 ≤ length ts →
  length us ≤ length ts →
  let calls := getNextTargets us (constructor ts "least-connections") in
  calls.1 = (λ target, Returns (Some target)) <$> take (length us) ts
  ∧ targets calls.2 = ts
  ∧ ∀ (i : nat) target,
      ts !! i = Some target →
      has_count (connectionCounts calls.2) target
        (if decide (i < length us) then 1 else 0).
Proof.
  intros Hnd Hproto Hlen Hus calls.
  destruct (getNextTargets_served us ts Hnd Hlen 0
              (constructor ts "least-connections")) as [Hrs (Hts & _ & Hc)].
  - by apply constructor_served.
  - simpl. lia.
  - fold calls in Hrs, Hts, Hc. rewrite drop_0 in Hrs. done.
Qed.

(** Three targets, two calls: [a] then [b]; [c] is still untouched. *)
Lemma least_connections_deals_in_order_witness :
  let calls := getNextTargets [mkSample 0 1; mkSample 1 2]
                 (constructor ["a"; "b"; "c"] "least-connections") in
  calls.1 = [Returns (Some "a"); Returns (Some "b")]
  ∧ has_count (connectionCounts calls.2) "c" 0.
Proof.
  intros calls.
  destruct (least_connections_deals_in_order [mkSample 0 1; mkSample 1 2]
              ["a"; "b"; "c"]) as (Hrs & _ & Hc).
  - compute_done.
  - compute_done.
  - simpl. lia.
  - simpl. lia.
  - split; [exact Hrs | exact (Hc 2 "c" eq_refl)].
Defined.

End BalancerOperations.

(** ** Registry lookup, the router gate and the health query *)

Section ProxyOperations.

Import ServiceProxy.

Implicit Types (sp : ServiceProxy.t) (h : heap) (service : ServiceEntry).

(** [getServiceMiddleware] finds exactly what [registerService] stored.
    An unregistered name throws, on a fresh proxy every name does; after a
    successful registration the name resolves to the entry just built, and
    every other name resolves as before. *)
Theorem getServiceMiddleware_after_register h serviceName r opts sp :
  (services sp !! serviceName = None →
     ∃ msg, getServiceMiddleware serviceName sp = Throws msg)
  ∧ (∀ name defaults,
       ∃ msg, getServiceMiddleware name (ServiceProxy.constructor defaults) = Throws msg)
  ∧ (∀ ts, h !! r = Some ts → ts ≠ [] →
       getServiceMiddleware serviceName (registerService h serviceName r opts sp).2
       = Returns (entryFor sp r ts opts)
       ∧ ∀ other, other ≠ serviceName →
           getServiceMiddleware other (registerService h serviceName r opts sp).2
           = getServiceMiddleware other sp).
Proof.
  split; [|split].
  - intros Hnone. unfold getServiceMiddleware. rewrite Hnone. eauto.
  - intros name defaults. unfold getServiceMiddleware. simpl.
    rewrite lookup_empty. eauto.
  - intros ts Hr Hne. rewrite (registerService_accepts _ _ _ _ _ ts) by done.
    unfold getServiceMiddleware. simpl. split.
    + by rewrite lookup_insert_eq.
    + intros other Hother. by rewrite lookup_insert_ne.
Qed.

Lemma getServiceMiddleware_after_register_witness :
  let h : heap := {[ 1%positive := ["http://a:1"] ]} in
  let opts := mkOptions None None None in
  let sp := ServiceProxy.constructor opts in
  getServiceMiddleware "svc" (registerService h "svc" 1%positive opts sp).2
  = Returns (entryFor sp 1%positive ["http://a:1"] opts)
  ∧ ∃ msg, getServiceMiddleware "svc" sp = Throws msg.
Proof.
  intros h opts sp.
  destruct (getServiceMiddleware_after_register h "svc" 1%positive opts sp)
    as (Hmiss & _ & Hhit).
  split.
  - apply (Hhit ["http://a:1"]); [reflexivity | discriminate].
  - apply Hmiss. reflexivity.
Defined.

(** The router gate.  While the breaker is OPEN and its timeout has not
    passed, the router throws and leaves the whole entry as it was: the
    balancer is not consulted, no cursor moves, no counter rises.  Once the
    timeout has passed the same call lets the request through to the
    balancer and leaves the breaker HALF_OPEN.  A breaker that is not OPEN
    never blocks. *)
Theorem router_gate now u service :
  let cb := circuitBreaker service in
  (CircuitBreaker.state cb = CircuitBreaker.OPEN →
   (CircuitBreaker.elapsed now cb ≤ CircuitBreaker.resetTimeout cb)%Z →
     router now u service = (Throws "Service is unavailable (circuit open)", service))
  ∧ (CircuitBreaker.state cb = CircuitBreaker.OPEN →
     (CircuitBreaker.resetTimeout cb < CircuitBreaker.elapsed now cb)%Z →
       (router now u service).1 = (LoadBalancer.getNextTarget u (loadBalancer service)).1
       ∧ circuitBreaker (router now u service).2
         = CircuitBreaker.transitionToHalfOpen cb)
  ∧ (CircuitBreaker.state cb ≠ CircuitBreaker.OPEN →
       (router now u service).1 = (LoadBalancer.getNextTarget u (loadBalancer service)).1
       ∧ circuitBreaker (router now u service).2 = cb).
Proof.
  intros cb. subst cb. unfold router. split; [|split].
  - intros Hs Hle. unfold CircuitBreaker.isOpen. rewrite Hs. simpl.
    destruct (Z.ltb_spec (CircuitBreaker.resetTimeout (circuitBreaker service))
                (CircuitBreaker.elapsed now (circuitBreaker service))); [lia|].
    rewrite Hs. simpl. by destruct service.
  - intros Hs Hlt. unfold CircuitBreaker.isOpen. rewrite Hs. simpl.
    destruct (Z.ltb_spec (CircuitBreaker.resetTimeout (circuitBreaker service))
                (CircuitBreaker.elapsed now (circuitBreaker service))); [|lia].
    simpl. by destruct (LoadBalancer.getNextTarget u (loadBalancer service)).
  - intros Hne. rewrite isOpen_not_open by done. simpl.
    by destruct (LoadBalancer.getNextTarget u (loadBalancer service)).
Qed.

(** A service whose breaker opened at time 1000: a request at 2000 is
    refused and the entry is untouched. *)
Lemma router_gate_witness :
  let service :=
    onError 1000 (Some "http://a:1")
      (entryFor (ServiceProxy.constructor (mkOptions None None None)) 1%positive
         ["http://a:1"; "http://b:1"]
         (mkOptions None (Some (CircuitBreaker.mkOptions (Some 1%Z) None None None))
            None)) in
  router 2000 (LoadBalancer.mkSample 0 1) service
  = (Throws "Service is unavailable (circuit open)", service).
Proof.
  intros service.
  destruct (router_gate 2000 (LoadBalancer.mkSample 0 1) service) as (Hshut & _).
  apply Hshut; [reflexivity | vm_compute; discriminate].
Defined.

(** *** Failed requests and the breaker *)

(** A request the breaker lets through and that fails is recorded as one
    failure at its completion time, whichever way it failed; the balancer
    is left as the selection left it. *)
Lemma handle_failing (r : request) service :
  CircuitBreaker.state (circuitBreaker service) ≠ CircuitBreaker.OPEN →
  LoadBalancer.cursor_valid (loadBalancer service) →
  EmptyString ∉ LoadBalancer.targets (loadBalancer service) →
  LoadBalancer.in_unit_interval (draw r) →
  failing (result r) →
  circuitBreaker (handle (arrival r) (completed r) (draw r) (result r) service).2
  = CircuitBreaker.recordFailure (completed r) (circuitBreaker service)
  ∧ loadBalancer (handle (arrival r) (completed r) (draw r) (result r) service).2
    = (LoadBalancer.getNextTarget (draw r) (loadBalancer service)).2.
Proof.
  intros Hst Hcur Hurl Hu Hfail. unfold handle, router.
  rewrite isOpen_not_open by done. simpl.
  destruct (getNextTarget_member (draw r) (loadBalancer service) Hcur Hu)
    as (target & Hret & Hin).
  destruct (LoadBalancer.getNextTarget (draw r) (loadBalancer service))
    as [res lb1]. simpl in *. subst res.
  destruct (result r) as [code|]; simpl in *.
  - destruct (Z.ltb_spec code 500); [lia|]. done.
  - unfold onError, truthy.
    destruct (String.eqb_spec target EmptyString) as [->|_]; [done|]. done.
Qed.

Lemma handles_failing (reqs : list request) :
  ∀ service,
    CircuitBreaker.state (circuitBreaker service) = CircuitBreaker.CLOSED →
    (CircuitBreaker.failureCount (circuitBreaker service) + Z.of_nat (length reqs)
     ≤ CircuitBreaker.failureThreshold (circuitBreaker service))%Z →
    LoadBalancer.well_formed (loadBalancer service) →
    LoadBalancer.targets (loadBalancer service) ≠ [] →
    EmptyString ∉ LoadBalancer.targets (loadBalancer service) →
    Forall (λ r, LoadBalancer.in_unit_interval (draw r) ∧ failing (result r)) reqs →
    circuitBreaker (handles reqs service)
    = CircuitBreaker.recordFailures (completed <$> reqs) (circuitBreaker service).
Proof.
  induction reqs as [|r reqs IH]; intros service Hst Hlen Hwf Hne Hurl Hall; [done|].
  apply Forall_cons in Hall as [[Hu Hfail] Hall].
  assert (LoadBalancer.cursor_valid (loadBalancer service)) as Hcur.
  { destruct Hwf as (_ & [?|[? _]] & _); done. }
  destruct (handle_failing r service) as [Hcb Hlb]; [by rewrite Hst|done..|].
  change (handles (r :: reqs) service)
    with (handles reqs (handle (arrival r) (completed r) (draw r) (result r) service).2).
  change (CircuitBreaker.recordFailures (completed <$> r :: reqs) (circuitBreaker service))
    with (CircuitBreaker.recordFailures (completed <$> reqs)
            (CircuitBreaker.recordFailure (completed r) (circuitBreaker service))).
  rewrite <- Hcb.
  destruct reqs as [|r' reqs']; [done|].
  apply IH.
  - rewrite Hcb, recordFailure_closed_below; [done | done |].
    simpl in Hlen. lia.
  - rewrite Hcb, recordFailure_closed_below; [| done | simpl in Hlen; lia].
    simpl in *. lia.
  - rewrite Hlb. by apply getNextTarget_well_formed.
  - by rewrite Hlb, getNextTarget_targets.
  - by rewrite Hlb, getNextTarget_targets.
  - done.
Qed.

(** Tripping the breaker.  A service with a CLOSED breaker and no failure
    counted handles as many requests in a row as its failure threshold, and
    each forward fails (transport error or status 500 and up).  Then the
    breaker is OPEN, and until [resetTimeout] has passed since the last of
    those failures every further request is refused by the router without
    the entry being touched. *)
Theorem failures_trip_the_breaker (reqs : list request) (final : request) service :
  let cb := circuitBreaker service in
  CircuitBreaker.state cb = CircuitBreaker.CLOSED →
  CircuitBreaker.failureCount cb = 0%Z →
  (Z.of_nat (length reqs) + 1 = CircuitBreaker.failureThreshold cb)%Z →
  LoadBalancer.well_formed (loadBalancer service) →
  LoadBalancer.targets (loadBalancer service) ≠ [] →
  EmptyString ∉ LoadBalancer.targets (loadBalancer service) →
  Forall (λ r, LoadBalancer.in_unit_interval (draw r) ∧ failing (result r))
         (reqs ++ [final]) →
  let service' := handles (reqs ++ [final]) service in
  CircuitBreaker.state (circuitBreaker service') = CircuitBreaker.OPEN
  ∧ ∀ now u,
      (now - completed final ≤ CircuitBreaker.resetTimeout cb)%Z →
      router now u service'
      = (Throws "Service is unavailable (circuit open)", service').
Proof.
  intros cb Hst Hfc HF Hwf Hne Hurl Hall service'.
  assert (circuitBreaker service'
          = CircuitBreaker.recordFailures (completed <$> reqs ++ [final]) cb) as Hcb.
  { apply handles_failing; try done. fold cb. rewrite length_app. simpl. lia. }
  rewrite fmap_app in Hcb. simpl in Hcb. rewrite recordFailures_snoc in Hcb.
  destruct (recordFailures_below (completed <$> reqs) cb) as (H1 & H2 & H3).
  { done. }
  { rewrite length_fmap. lia. }
  rewrite length_fmap in H2.
  destruct (recordFailure_closed_reach (completed final)
              (CircuitBreaker.recordFailures (completed <$> reqs) cb))
    as (Hopen & _ & _ & Hstamp); [done | lia |].
  rewrite <- Hcb in Hopen, Hstamp.
  split; [done|].
  intros now u Hnow. unfold router, CircuitBreaker.isOpen, CircuitBreaker.elapsed.
  rewrite Hopen, Hstamp. simpl.
  assert (CircuitBreaker.resetTimeout (circuitBreaker service')
          = CircuitBreaker.resetTimeout cb) as Hrt.
  { rewrite Hcb.
    destruct (recordFailure_settings (completed final)
                (CircuitBreaker.recordFailures (completed <$> reqs) cb)) as (_ & -> & _).
    clear. induction (completed <$> reqs) as [|t ts IH] using rev_ind; [done|].
    rewrite recordFailures_snoc.
    destruct (recordFailure_settings t (CircuitBreaker.recordFailures ts cb))
      as (_ & -> & _). done. }
  rewrite Hrt.
  destruct (Z.ltb_spec (CircuitBreaker.resetTimeout cb) (now - completed final)); [lia|].
  rewrite Hopen. simpl. by destruct service'.
Qed.

(** A threshold of two; one request answered 503 and one transport error.
    The breaker is open and a request one second later is refused. *)
Lemma failures_trip_the_breaker_witness :
  let service :=
    entryFor (ServiceProxy.constructor (mkOptions None None None)) 1%positive
      ["http://a:1"; "http://b:1"]
      (mkOptions None (Some (CircuitBreaker.mkOptions (Some 2%Z) None None None))
         None) in
  let first := mkRequest 100 110 (LoadBalancer.mkSample 0 1) (Responded 503) in
  let second := mkRequest 200 210 (LoadBalancer.mkSample 0 1) Failed in
  let service' := handles [first; second] service in
  CircuitBreaker.state (circuitBreaker service') = CircuitBreaker.OPEN
  ∧ router 1210 (LoadBalancer.mkSample 0 1) service'
    = (Throws "Service is unavailable (circuit open)", service').
Proof.
  intros service first second service'.
  destruct (failures_trip_the_breaker [first] second service) as [Hopen Hshut].
  - reflexivity.
  - reflexivity.
  - reflexivity.
  - apply constructor_well_formed; compute_done.
  - discriminate.
  - compute_done.
  - repeat constructor; unfold LoadBalancer.in_unit_interval; simpl; lia.
  - split; [exact Hopen|]. apply Hshut. vm_compute. discriminate.
Defined.

(** *** The health query, asked twice *)

Lemma visit_again h now service :
  visit h now (visit h now service).2 = visit h now service.
Proof.
  unfold visit.
  pose proof (isOpen_again now (circuitBreaker service)) as Hagain.
  destruct (CircuitBreaker.isOpen now (circuitBreaker service)) as [ans cb].
  cbn [snd circuitBreaker set_circuitBreaker] in *. by rewrite Hagain.
Qed.

(** Asking for the health report a second time at the same clock readings
    gives the same report and changes nothing more: all a query ever does
    to the registry is the lazy OPEN to HALF_OPEN step of each breaker,
    and that is done after the first. *)
Theorem health_query_twice h clock sp :
  getHealthMiddleware h clock (getHealthMiddleware h clock sp).2
  = getHealthMiddleware h clock sp.
Proof.
  unfold getHealthMiddleware. simpl.
  assert (map_imap (λ name service, Some (visit h (clock name) service))
            (snd <$> map_imap (λ name service, Some (visit h (clock name) service))
                       (services sp))
          = map_imap (λ name service, Some (visit h (clock name) service))
              (services sp)) as ->; [|done].
  apply map_eq. intros name.
  rewrite !map_lookup_imap, lookup_fmap, map_lookup_imap.
  destruct (services sp !! name) as [service|]; [|done].
  change (Some (visit h (clock name) (visit h (clock name) service).2)
          = Some (visit h (clock name) service)).
  by rewrite visit_again.
Qed.

End ProxyOperations.
